(** * Covariance reducers of tskit's [tests/test_covariance.py]

    A shallow embedding of the covariance helpers of
    [python/tests/test_covariance.py] and the properties the specification
    states about them.

    Python floats are modelled by exact rationals ([Q], compared with [==]);
    rounding is outside the model.  Python exceptions are modelled by the
    [Raise] constructor of [result]. *)

From Stdlib Require Import String List Finite ZArith QArith Qabs Qfield Lia Bool Arith.
Import ListNotations.

(** ** Exceptions and results *)

Inductive exn : Type :=
| ValueError (msg : string)
| IndexError
| ZeroDivisionError.

Inductive result (A : Type) : Type :=
| Ok (a : A)
| Raise (e : exn).

Arguments Ok {A} a.
Arguments Raise {A} e.

Definition bind {A B : Type} (r : result A) (k : A -> result B) : result B :=
  match r with
  | Ok a => k a
  | Raise e => Raise e
  end.

Notation "x <- c1 ;; c2" := (bind c1 (fun x => c2))
  (at level 61, c1 at next level, right associativity).
Notation "c1 ;;; c2" := (bind c1 (fun _ => c2))
  (at level 61, right associativity).

(** A [for] loop whose body may raise: the state is threaded through the
    items in order and the first exception ends the loop. *)
Fixpoint for_each {A S : Type} (items : list A) (body : A -> S -> result S)
  (s : S) : result S :=
  match items with
  | [] => Ok s
  | a :: rest => s' <- body a s ;; for_each rest body s'
  end.

(** Python's [x[i]] on a sequence with a non-negative index. *)
Definition getitem {A : Type} (l : list A) (i : nat) : result A :=
  match nth_error l i with
  | Some a => Ok a
  | None => Raise IndexError
  end.

(** Python's [x[i]] with an arbitrary integer index: a negative index counts
    from the end, anything outside [-len, len) raises [IndexError]. *)
Definition getitemZ {A : Type} (l : list A) (i : Z) : result A :=
  let n := Z.of_nat (length l) in
  if ((0 <=? i) && (i <? n))%Z then getitem l (Z.to_nat i)
  else if ((- n <=? i) && (i <? 0))%Z then getitem l (Z.to_nat (n + i))
  else Raise IndexError.

(** [sum] of a sequence of numbers. *)
Definition qsum (l : list Q) : Q := fold_left Qplus l 0.

(** [itertools.combinations_with_replacement(range(n), 2)]: the pairs
    [(i, j)] with [i <= j < n], in lexicographic order. *)
Definition combinations_with_replacement2 (n : nat) : list (nat * nat) :=
  flat_map (fun i => map (fun j => (i, j)) (seq i (n - i))) (seq 0 n).

(** ** Two-dimensional numpy arrays *)

Module Np.

Record ndarray2 : Type := mk {
  shape0 : nat;
  shape1 : nat;
  data : list (list Q)
}.

Definition build (r c : nat) (f : nat -> nat -> Q) : ndarray2 :=
  mk r c (map (fun i => map (fun j => f i j) (seq 0 c)) (seq 0 r)).

(** [np.zeros((r, c))] *)
Definition zeros (r c : nat) : ndarray2 := build r c (fun _ _ => 0).

Definition get (A : ndarray2) (i j : nat) : Q :=
  nth j (nth i (data A) []) 0.

Fixpoint update {X : Type} (l : list X) (i : nat) (g : X -> X) : list X :=
  match l, i with
  | [], _ => []
  | x :: rest, O => g x :: rest
  | x :: rest, S i' => x :: update rest i' g
  end.

(** [A[i, j]] *)
Definition getitem2 (A : ndarray2) (i j : nat) : result Q :=
  if ((i <? shape0 A) && (j <? shape1 A))%nat then Ok (get A i j)
  else Raise IndexError.

(** [A[i, j] = v] *)
Definition setitem2 (A : ndarray2) (i j : nat) (v : Q) : result ndarray2 :=
  if ((i <? shape0 A) && (j <? shape1 A))%nat
  then Ok (mk (shape0 A) (shape1 A)
             (update (data A) i (fun row => update row j (fun _ => v))))
  else Raise IndexError.

(** [A.T] *)
Definition transpose (A : ndarray2) : ndarray2 :=
  build (shape1 A) (shape0 A) (fun i j => get A j i).

(** [np.mean(A, axis=1)]: one mean per row.  For a row of length zero numpy
    yields [nan] (with a warning); the rational model has no [nan] and yields
    [0 / 0 = 0] there. *)
Definition mean_axis1 (A : ndarray2) : list Q :=
  map (fun row => qsum row / inject_Z (Z.of_nat (shape1 A))) (data A).

(** [A - v] for [A] of shape [(r, c)] and a vector [v] of shape [(k,)],
    with numpy's broadcasting: [v] runs along the rows when [k = c], a
    one-element [v] is subtracted everywhere, a one-column [A] is stretched
    to [k] columns, and any other pair of shapes raises [ValueError]. *)
Definition sub_broadcast (A : ndarray2) (v : list Q) : result ndarray2 :=
  let k := length v in
  if (k =? shape1 A)%nat
  then Ok (build (shape0 A) (shape1 A) (fun i j => get A i j - nth j v 0))
  else if (k =? 1)%nat
  then Ok (build (shape0 A) (shape1 A) (fun i j => get A i j - nth 0 v 0))
  else if (shape1 A =? 1)%nat
  then Ok (build (shape0 A) k (fun i j => get A i 0 - nth j v 0))
  else Raise (ValueError "operands could not be broadcast together"%string).

(** [A @ B]: the inner dimensions must agree. *)
Definition matmul (A B : ndarray2) : result ndarray2 :=
  if (shape1 A =? shape0 B)%nat
  then Ok (build (shape0 A) (shape1 B)
             (fun i j =>
                qsum (map (fun k => get A i k * get B k j)
                          (seq 0 (shape1 A)))))
  else Raise (ValueError "matmul: mismatch in its core dimension"%string).

(** [A + B] and [A - B]; they are only applied to arrays of one shape (a
    square array, its transpose and its diagonal part). *)
Definition add (A B : ndarray2) : ndarray2 :=
  build (shape0 A) (shape1 A) (fun i j => get A i j + get B i j).

Definition sub (A B : ndarray2) : ndarray2 :=
  build (shape0 A) (shape1 A) (fun i j => get A i j - get B i j).

(** [A.diagonal()] of a square array and [np.diag(v)] of a vector. *)
Definition diagonal (A : ndarray2) : list Q :=
  map (fun i => get A i i) (seq 0 (Nat.min (shape0 A) (shape1 A))).

Definition diag (v : list Q) : ndarray2 :=
  build (length v) (length v) (fun i j => if (i =? j)%nat then nth i v 0 else 0).

(** [A * c] *)
Definition mul_scalar (A : ndarray2) (c : Q) : ndarray2 :=
  build (shape0 A) (shape1 A) (fun i j => get A i j * c).

(** [A / c] *)
Definition div_scalar (A : ndarray2) (c : Q) : ndarray2 :=
  build (shape0 A) (shape1 A) (fun i j => get A i j / c).

(** [np.triu_indices(n)]: the positions of the upper triangle, row by row. *)
Definition triu_indices (n : nat) : list (nat * nat) :=
  combinations_with_replacement2 n.

(** [A[idx] = values] for a list of positions: the k-th value goes to the
    k-th position; a length mismatch raises [ValueError]. *)
Definition setitem_indices (A : ndarray2) (idx : list (nat * nat))
  (values : list Q) : result ndarray2 :=
  if (length idx =? length values)%nat
  then for_each (combine idx values)
         (fun '((i, j), v) M => setitem2 M i j v) A
  else Raise (ValueError "shape mismatch"%string).

(** [A.reshape((r, c))] of a flat vector, row-major. *)
Definition reshape (v : list Q) (r c : nat) : result ndarray2 :=
  if (length v =? r * c)%nat
  then Ok (build r c (fun i j => nth (i * c + j) v 0))
  else Raise (ValueError "cannot reshape array"%string).

(** Arrays are compared entry by entry, up to equality of rationals. *)
Definition equiv (A B : ndarray2) : Prop :=
  shape0 A = shape0 B /\ shape1 A = shape1 B /\
  forall i j, (i < shape0 A)%nat -> (j < shape1 A)%nat ->
              get A i j == get B i j.


(** The same comparisons as boolean tests. *)
Definition veqb (u v : list Q) : bool :=
  ((length u =? length v)%nat
   && forallb (fun p => Qeq_bool (fst p) (snd p)) (combine u v))%bool.

Definition eqb (A B : ndarray2) : bool :=
  ((shape0 A =? shape0 B)%nat && (shape1 A =? shape1 B)%nat
   && forallb (fun i =>
                 forallb (fun j => Qeq_bool (get A i j) (get B i j))
                         (seq 0 (shape1 A)))
              (seq 0 (shape0 A)))%bool.

(** Well-shaped: the data has exactly the announced shape. *)
Definition wf (A : ndarray2) : Prop :=
  length (data A) = shape0 A /\
  Forall (fun row => length row = shape1 A) (data A).

End Np.

(** ** Trees, as the code observes them through tskit's [Tree] interface *)

Definition node := Z.

Record Tree : Type := {
  roots : list node;                 (* tree.roots *)
  nodes : list node;                 (* tree.nodes() *)
  num_children : node -> nat;        (* tree.num_children(u) *)
  mrca : node -> node -> node;       (* tree.mrca(u, v) *)
  time : node -> Q;                  (* tree.time(u) *)
  span : Q;                          (* tree.span *)
  samples : list node                (* tree.tree_sequence.samples() *)
}.

(** [tree.root]; the covariance loop reads it only after the topology check,
    when there is exactly one root. *)
Definition root (tree : Tree) : result node :=
  match roots tree with
  | [r] => Ok r
  | _ => Raise (ValueError "More than one root exists. Use tree.roots instead"%string)
  end.

Definition check_cov_tree_inputs (tree : Tree) : result unit :=
  if negb (length (roots tree) =? 1)%nat
  then Raise (ValueError "Trees must have one root"%string)
  else
    for_each (nodes tree)
      (fun u _ =>
         if (num_children tree u =? 1)%nat
         then Raise (ValueError "Unary nodes are not supported"%string)
         else Ok tt)
      tt.

Definition naive_tree_covariance (tree : Tree) : result Np.ndarray2 :=
  let samples := samples tree in
  check_cov_tree_inputs tree ;;;
  let n := length samples in
  let cov := Np.zeros n n in
  for_each (combinations_with_replacement2 n)
    (fun '(n1, n2) cov =>
       s1 <- getitem samples n1 ;;
       s2 <- getitem samples n2 ;;
       let mrca := mrca tree s1 s2 in
       r <- root tree ;;
       cov <- Np.setitem2 cov n1 n2 (time tree r - time tree mrca) ;;
       v <- Np.getitem2 cov n1 n2 ;;
       Np.setitem2 cov n2 n1 v)
    cov.

(** ** Tree sequences, as far as the reducers read them *)

Record TreeSequence : Type := {
  ts_samples : list node;            (* ts.samples() *)
  sites : list (list Z);             (* the rows of ts.genotype_matrix() *)
  sequence_length : Q;               (* ts.sequence_length *)
  trees : list Tree                  (* ts.trees() *)
}.

(** The span-weighted mean of the tree covariances. *)
Definition naive_ts_covariance (ts : TreeSequence) : result Np.ndarray2 :=
  let samples := ts_samples ts in
  let n := length samples in
  let cov := Np.zeros n n in
  cov <- for_each (trees ts)
           (fun tree cov =>
              c <- naive_tree_covariance tree ;;
              Ok (Np.add cov (Np.mul_scalar c (span tree))))
           cov ;;
  Ok (Np.div_scalar cov (sequence_length ts)).

(** [ts.num_samples] *)
Definition num_samples (ts : TreeSequence) : nat := length (ts_samples ts).

(** [ts.genotype_matrix()]: shape (number of sites, number of samples). *)
Definition genotype_matrix (ts : TreeSequence) : Np.ndarray2 :=
  Np.mk (length (sites ts)) (num_samples ts) (map (map inject_Z) (sites ts)).

(** Every site has one genotype per sample. *)
Definition wf_ts (ts : TreeSequence) : Prop :=
  Forall (fun row => length row = num_samples ts) (sites ts).



(** A list comprehension whose element expression may raise. *)
Fixpoint mapM {A B : Type} (f : A -> result B) (l : list A) : result (list B) :=
  match l with
  | [] => Ok []
  | a :: rest => b <- f a ;; bs <- mapM f rest ;; Ok (b :: bs)
  end.

(** [range(n)] and the pairs of [for i in range(n) for j in range(n)]. *)
Definition range (n : nat) : list nat := seq 0 n.

Definition range2 (n : nat) : list (nat * nat) :=
  flat_map (fun i => map (fun j => (i, j)) (range n)) (range n).

(** ** The sample-count statistic of the library *)

(** Modelled from the spec: the position of sample [u] in [ts.samples()],
    which is its column in the genotype matrix of section 3. *)
Fixpoint index_of (u : node) (l : list node) : option nat :=
  match l with
  | [] => None
  | v :: rest => if (u =? v)%Z then Some O
                 else option_map S (index_of u rest)
  end.

(** Modelled from the spec: whether sample [u] carries allele [a] at the site
    whose genotypes are [row]. *)
Definition carries (ts : TreeSequence) (row : list Z) (a : Z) (u : node) : bool :=
  match index_of u (ts_samples ts) with
  | Some c => match nth_error row c with
              | Some g => (g =? a)%Z
              | None => false
              end
  | None => false
  end.

(** Modelled from the spec: the per-site allele count vector of section 3,
    which tskit computes inside [sample_count_stat]: [x[k]] is the number of
    samples of sample set [k] that carry the allele. *)
Definition count_vector (ts : TreeSequence) (sample_sets : list (list node))
  (row : list Z) (a : Z) : list Q :=
  map (fun set =>
         inject_Z (Z.of_nat (length (filter (carries ts row a) set))))
      sample_sets.

(** Modelled from the spec: the alleles of a site over which the statistic
    runs.  Allele 0 is the ancestral state; a polarised statistic leaves it
    out, an unpolarised one treats ancestral and derived alleles alike. *)
Definition site_alleles (polarised : bool) (row : list Z) : list Z :=
  let top := fold_left Z.max row 0%Z in
  filter (fun a => negb polarised || negb (a =? 0)%Z)
         (map Z.of_nat (seq 0 (S (Z.to_nat top)))).

Definition vadd (a b : list Q) : list Q :=
  map (fun p => fst p + snd p) (combine a b).

(** Modelled from the spec: [ts.sample_count_stat(sample_sets, f, output_dim,
    mode="site", span_normalise, polarised)] of section 6, whose code is in
    the library and not in the test module.  The summary function [f] is
    applied to the count vector of every allele of every site and the results
    are summed; [span_normalise] divides by the sequence length.  A result of
    [f] that is not [output_dim] long is an input-shape error.  The [strict]
    flag, of which the spec gives only the name, is not modelled. *)
Definition sample_count_stat (ts : TreeSequence) (sample_sets : list (list node))
  (f : list Q -> result (list Q)) (output_dim : nat)
  (span_normalise polarised : bool) : result (list Q) :=
  total <- for_each
             (flat_map (fun row => map (fun a => (row, a))
                                       (site_alleles polarised row))
                       (sites ts))
             (fun '(row, a) acc =>
                y <- f (count_vector ts sample_sets row a) ;;
                if (length y =? output_dim)%nat then Ok (vadd acc y)
                else Raise (ValueError "summary function output has the wrong dimension"%string))
             (repeat 0 output_dim) ;;
  Ok (if span_normalise
      then map (fun v => v / sequence_length ts) total
      else total).

(** ** The reducers of the test module *)

Definition naive_genotype_covariance (ts : TreeSequence)
  : result Np.ndarray2 :=
  let G := genotype_matrix ts in
  G <- Np.sub_broadcast (Np.transpose G) (Np.mean_axis1 G) ;;
  Np.matmul G (Np.transpose G).

(** [[[u] for u in ts.samples()]] *)
Definition singleton_sets (ts : TreeSequence) : list (list node) :=
  map (fun u => [u]) (ts_samples ts).

(** Python's [True] and [False] as factors. *)
Definition Qbool (b : bool) : Q := if b then 1 else 0.

(** The summary function [f] inside [genetic_relatedness]; [n] is the number
    of sample sets and [num_samples] the sum of their sizes. *)
Definition genetic_relatedness_f (n num_samples : nat) (x : list Q)
  : result (list Q) :=
  mapM (fun '(i, j) =>
          xi <- getitem x i ;;
          xj <- getitem x j ;;
          Ok (xi * xj
              * Qbool (negb (Qeq_bool (qsum x) (inject_Z (Z.of_nat num_samples))))))
       (range2 n).


(** The summary function [f] inside [genotype_relatedness]. *)
Definition genotype_relatedness_f (n : nat) (x : list Q) : result (list Q) :=
  let nq := inject_Z (Z.of_nat n) in
  mapM (fun '(i, j) =>
          xi <- getitem x i ;;
          xj <- getitem x j ;;
          Ok ((xi - qsum x / nq) * (xj - qsum x / nq)))
       (range2 n).

Definition genotype_relatedness (ts : TreeSequence) (polarised : bool)
  : result Np.ndarray2 :=
  let n := num_samples ts in
  let sample_sets := singleton_sets ts in
  v <- sample_count_stat ts sample_sets (genotype_relatedness_f n)
         (n * n) false polarised ;;
  M <- Np.reshape v n n ;;
  Ok (Np.div_scalar M 2).

(** The summary function [f] inside [c_genotype_relatedness].  [sumx] starts
    as the integer 0, so with no sample set at all the division is an integer
    division by zero. *)
Definition c_genotype_relatedness_f (state_dim : nat) (indexes : list (Z * Z))
  (x : list Q) : result (list Q) :=
  sumx <- for_each (range state_dim)
            (fun k sumx => xk <- getitem x k ;; Ok (sumx + xk)) 0 ;;
  meanx <- (if (state_dim =? 0)%nat then Raise ZeroDivisionError
            else Ok (sumx / inject_Z (Z.of_nat state_dim))) ;;
  mapM (fun '(i, j) =>
          xi <- getitemZ x i ;;
          xj <- getitemZ x j ;;
          Ok ((xi - meanx) * (xj - meanx) / 2))
       indexes.

Definition c_genotype_relatedness (ts : TreeSequence)
  (sample_sets : list (list node)) (indexes : list (Z * Z))
  : result (list Q) :=
  let m := length indexes in
  let state_dim := length sample_sets in
  sample_count_stat ts sample_sets (c_genotype_relatedness_f state_dim indexes)
    m false false.

(** [M + M.T - np.diag(M.diagonal())], as [verify] applies it. *)
Definition reflect (M : Np.ndarray2) : Np.ndarray2 :=
  Np.sub (Np.add M (Np.transpose M)) (Np.diag (Np.diagonal M)).

(** The matrix [cov4] of [TestCovariance.verify]. *)
Definition verify_cov4 (ts : TreeSequence) : result Np.ndarray2 :=
  let sample_sets := singleton_sets ts in
  let n := length sample_sets in
  let indexes := combinations_with_replacement2 n in
  let cov4 := Np.zeros n n in
  v <- c_genotype_relatedness ts sample_sets
         (map (fun p => (Z.of_nat (fst p), Z.of_nat (snd p))) indexes) ;;
  cov4 <- Np.setitem_indices cov4 (Np.triu_indices n) v ;;
  Ok (reflect cov4).

(** The matrix [cov2] of [TestCovariance.verify]. *)
Definition verify_cov2 (ts : TreeSequence) : result Np.ndarray2 :=
  genotype_relatedness ts false.

(** [np.allclose]-style closeness with a relative tolerance only. *)
Definition rel_close (rtol : Q) (A B : Np.ndarray2) : Prop :=
  Np.shape0 A = Np.shape0 B /\ Np.shape1 A = Np.shape1 B /\
  forall i j, (i < Np.shape0 A)%nat -> (j < Np.shape1 A)%nat ->
              Qabs (Np.get A i j - Np.get B i j) <= rtol * Qabs (Np.get B i j).

(** ** Sample inputs *)

Definition ts_of_rows (n : nat) (rows : list (list Z)) : TreeSequence :=
  {| ts_samples := map Z.of_nat (seq 0 n);
     sites := rows;
     sequence_length := 1;
     trees := [] |}.

(** The one-site, six-sample scenario of the spec. *)
Definition ts_scenario : TreeSequence := ts_of_rows 6 [[0; 0; 0; 0; 1; 2]%Z].

(** The same site with the two derived alleles merged into one. *)
Definition ts_scenario01 : TreeSequence := ts_of_rows 6 [[0; 0; 0; 0; 1; 1]%Z].

(** ** Notions used in the statements *)

(** Sample trees: a cherry, a forest of two isolated nodes, a tree with no
    root, and a root above a single child above a cherry. *)
Definition tree_cherry : Tree :=
  {| roots := [2%Z]; nodes := [2; 0; 1]%Z;
     num_children := fun u => if (u =? 2)%Z then 2%nat else 0%nat;
     mrca := fun u v => if (u =? v)%Z then u else 2%Z;
     time := fun u => if (u =? 2)%Z then 1 else 0;
     span := 1;
     samples := [0; 1]%Z |}.

Definition tree_two_roots : Tree :=
  {| roots := [0; 1]%Z; nodes := [0; 1]%Z;
     num_children := fun _ => 0%nat;
     mrca := fun u v => if (u =? v)%Z then u else (-1)%Z;
     time := fun _ => 0;
     span := 1;
     samples := [0; 1]%Z |}.

Definition tree_no_root : Tree :=
  {| roots := []; nodes := [];
     num_children := fun _ => 0%nat;
     mrca := fun _ _ => (-1)%Z;
     time := fun _ => 0;
     span := 1;
     samples := [] |}.

Definition tree_unary : Tree :=
  {| roots := [3%Z]; nodes := [3; 2; 0; 1]%Z;
     num_children := fun u => if (u =? 3)%Z then 1%nat
                              else if (u =? 2)%Z then 2%nat else 0%nat;
     mrca := fun u v => if (u =? v)%Z then u else 2%Z;
     time := fun u => if (u =? 3)%Z then 2 else if (u =? 2)%Z then 1 else 0;
     span := 1;
     samples := [0; 1]%Z |}.

(** The value Python reads at [x[i]] for a valid index. *)
Definition valid_index (n : nat) (i : Z) : Prop :=
  (- Z.of_nat n <= i < Z.of_nat n)%Z.

Definition py_nth (x : list Q) (i : Z) : Q :=
  nth (Z.to_nat (if (i <? 0)%Z then Z.of_nat (length x) + i else i)) x 0.

Definition valid_pairs (n : nat) (indexes : list (Z * Z)) : Prop :=
  forall p, In p indexes -> valid_index n (fst p) /\ valid_index n (snd p).

(** The centred array [G.T - np.mean(G, axis=1)] of a tree sequence. *)
Definition centred (ts : TreeSequence) : Np.ndarray2 :=
  let G := genotype_matrix ts in
  Np.build (num_samples ts) (length (sites ts))
    (fun i j => Np.get (Np.transpose G) i j - nth j (Np.mean_axis1 G) 0).

(** Mean of site [k] over all samples, and the genotype of sample [s] at site
    [k] centred by it, as the specification words them. *)
Definition site_mean (ts : TreeSequence) (k : nat) : Q :=
  qsum (map (fun j => Np.get (genotype_matrix ts) k j)
            (seq 0 (num_samples ts)))
  / inject_Z (Z.of_nat (num_samples ts)).

Definition spec_centred (ts : TreeSequence) (s k : nat) : Q :=
  Np.get (genotype_matrix ts) k s - site_mean ts k.

(** [A . A^T] for [A[s][k] = G[k][s] - mean_j G[k][j]], with no division by
    the number of sites. *)
Definition spec_covariance (ts : TreeSequence) : Np.ndarray2 :=
  Np.build (num_samples ts) (num_samples ts)
    (fun a b =>
       qsum (map (fun k => spec_centred ts a k * spec_centred ts b k)
                 (seq 0 (length (sites ts))))).

(** Inputs with no site, and with no sample. *)
Definition ts_no_sites : TreeSequence := ts_of_rows 2 [].
Definition ts_no_samples : TreeSequence := ts_of_rows 0 [[]; []].

(** Shape, well-shapedness and exact symmetry of a square array. *)
Definition square_sym (n : nat) (M : Np.ndarray2) : Prop :=
  Np.wf M /\ Np.shape0 M = n /\ Np.shape1 M = n /\
  forall i j, Np.get M i j = Np.get M j i.



(** The genotype of sample [i] at a site, centred by the site mean. *)
Definition cen (n : nat) (row : list Z) (i : nat) : Q :=
  inject_Z (nth i row 0%Z) - qsum (map inject_Z row) / inject_Z (Z.of_nat n).



(** The tolerance the specification asks for. *)
Definition rtol : Q := 1 # 10000000.

(** [np.outer(u, v)] *)
Definition outer (u v : list Q) : Np.ndarray2 :=
  Np.build (length u) (length v) (fun i j => nth i u 0 * nth j v 0).

Definition scenario_centred : list Q :=
  [- (1 # 2); - (1 # 2); - (1 # 2); - (1 # 2); 1 # 2; 3 # 2].

(** ** Notions used for the remaining code of the test module *)

(** A tree the topology check lets through. *)
Definition tree_accepted (tree : Tree) : Prop :=
  length (roots tree) = 1%nat /\
  forall u, In u (nodes tree) -> num_children tree u <> 1%nat.

(** Distance from the root [r] to the most recent common ancestor of the
    samples at positions [i] and [j]. *)
Definition root_to_mrca (tree : Tree) (r : node) (i j : nat) : Q :=
  time tree r
  - time tree (mrca tree (nth i (samples tree) 0%Z) (nth j (samples tree) 0%Z)).

(** The entry [(i, j)] of the covariance of an accepted tree: the distance
    from its root to the most recent common ancestor of the two samples, the
    one with the smaller position first, as the loop passes them to
    [tree.mrca]. *)
Definition tree_distance (tree : Tree) (i j : nat) : Q :=
  match roots tree with
  | [r] => root_to_mrca tree r (Nat.min i j) (Nat.max i j)
  | _ => 0
  end.

(** Tree sequences of two trees over the samples 0 and 1: two cherries with
    different root times and spans, and a cherry followed by a forest. *)
Definition tree_cherry_tall : Tree :=
  {| roots := [2%Z]; nodes := [2; 0; 1]%Z;
     num_children := fun u => if (u =? 2)%Z then 2%nat else 0%nat;
     mrca := fun u v => if (u =? v)%Z then u else 2%Z;
     time := fun u => if (u =? 2)%Z then 3 else 0;
     span := 2;
     samples := [0; 1]%Z |}.

Definition ts_two_cherries : TreeSequence :=
  {| ts_samples := [0; 1]%Z; sites := []; sequence_length := 3;
     trees := [tree_cherry; tree_cherry_tall] |}.

Definition ts_bad_second_tree : TreeSequence :=
  {| ts_samples := [0; 1]%Z; sites := []; sequence_length := 3;
     trees := [tree_cherry; tree_two_roots] |}.

(** The same tree sequence with the labels of the alleles 0 and 1 exchanged
    at every site: genotype [g] becomes [1 - g]. *)
Definition flip_alleles (ts : TreeSequence) : TreeSequence :=
  {| ts_samples := ts_samples ts;
     sites := map (map (fun g => (1 - g)%Z)) (sites ts);
     sequence_length := sequence_length ts;
     trees := trees ts |}.

(** The quadratic form [w^T C w] of a square array. *)
Definition quadratic_form (C : Np.ndarray2) (w : nat -> Q) : Q :=
  qsum (map (fun a =>
               qsum (map (fun b => w a * Np.get C a b * w b)
                         (seq 0 (Np.shape1 C))))
            (seq 0 (Np.shape0 C))).

(** ** The tutorial script [docs/examples.py] *)

(** [enumerate(l)] *)
Definition enumerate {A : Type} (l : list A) : list (nat * A) :=
  combine (seq 0 (length l)) l.

(** The dictionary [{j: alleles[g] for j, g in enumerate(genotypes)}] of
    [parsimony], as the list of its items in insertion order.  [alleles[g]] is
    Python indexing: a negative genotype counts from the end of [alleles]. *)
Definition node_colours (alleles : list string) (genotypes : list Z)
  : result (list (nat * string)) :=
  mapM (fun '(j, g) => c <- getitemZ alleles g ;; Ok (j, c))
       (enumerate genotypes).

(** [d.get(j)] on such a dictionary. *)
Definition dict_get (d : list (nat * string)) (j : nat) : option string :=
  option_map snd (find (fun kv => (fst kv =? j)%nat) d).

(** The value Python reads at [l[i]] for a valid index, with a default for
    the others. *)
Definition py_item {A : Type} (l : list A) (i : Z) (d : A) : A :=
  nth (Z.to_nat (if (i <? 0)%Z then Z.of_nat (length l) + i else i)) l d.

(** [tskit.NULL] *)
Definition NULL : Z := (-1)%Z.

(** A mutation as [tree.map_mutations] returns it; [mut_parent] is a position
    in the returned list, or [NULL]. *)
Record Mutation : Type := {
  mut_node : Z;
  mut_parent : Z;
  mut_derived_state : string
}.

(** What the loop reads of a variant. *)
Record Variant : Type := {
  var_index : Z;                     (* var.index *)
  var_position : Q;                  (* var.site.position *)
  var_genotypes : list Z;            (* var.genotypes *)
  var_alleles : list string          (* var.alleles *)
}.

Record SiteRow : Type := {
  site_position : Q;
  site_ancestral_state : string
}.

Record MutationRow : Type := {
  row_site : Z;
  row_node : Z;
  row_parent : Z;
  row_derived_state : string
}.

Record Tables : Type := {
  tab_sites : list SiteRow;
  tab_mutations : list MutationRow
}.

(** One round of the loop of [parsimony] that re-infers the sites and
    mutations: the site row is added, then one mutation row per inferred
    mutation, its parent moved from a position in the inferred list to a
    position in the table.  [map_mutations] stands for
    [tree.map_mutations], which is library code. *)
Definition reinfer_variant
  (map_mutations : list Z -> list string -> string * list Mutation)
  (tables : Tables) (var : Variant) : Tables :=
  let '(ancestral_state, mutations) :=
    map_mutations (var_genotypes var) (var_alleles var) in
  let sites := tab_sites tables
               ++ [{| site_position := var_position var;
                      site_ancestral_state := ancestral_state |}] in
  let parent_offset := Z.of_nat (length (tab_mutations tables)) in
  {| tab_sites := sites;
     tab_mutations :=
       fold_left
         (fun rows mutation =>
            let parent := mut_parent mutation in
            let parent := if negb (parent =? NULL)%Z
                          then (parent + parent_offset)%Z else parent in
            rows ++ [{| row_site := var_index var;
                        row_node := mut_node mutation;
                        row_parent := parent;
                        row_derived_state := mut_derived_state mutation |}])
         mutations (tab_mutations tables) |}.

(** The whole loop, started on the cleared tables. *)
Definition reinfer
  (map_mutations : list Z -> list string -> string * list Mutation)
  (variants : list Variant) : Tables :=
  fold_left (reinfer_variant map_mutations) variants
            {| tab_sites := []; tab_mutations := [] |}.

(** The parents of an inferred list point backwards: each is [NULL] or the
    position of an earlier mutation of the list. *)
Definition parents_point_back (mutations : list Mutation) : Prop :=
  forall k m, nth_error mutations k = Some m ->
              mut_parent m = NULL
              \/ (0 <= mut_parent m < Z.of_nat k)%Z.

(** The integrity of a mutation table: the parent of a row is [NULL] or an
    earlier row of the same site. *)
Definition parents_in_site (rows : list MutationRow) : Prop :=
  forall k row, nth_error rows k = Some row ->
                row_parent row = NULL
                \/ ((0 <= row_parent row < Z.of_nat k)%Z /\
                    exists prow,
                      nth_error rows (Z.to_nat (row_parent row)) = Some prow
                      /\ row_site prow = row_site row).

(** A stand-in for [tree.map_mutations] in examples: two mutations, the
    second below the first. *)
Definition map_mutations_two (genotypes : list Z) (alleles : list string)
  : string * list Mutation :=
  (nth 0 alleles ""%string,
   [{| mut_node := 7; mut_parent := NULL; mut_derived_state := "b"%string |};
    {| mut_node := 4; mut_parent := 0; mut_derived_state := "c"%string |}]).

Definition two_variants : list Variant :=
  [{| var_index := 0; var_position := 1 # 10; var_genotypes := [0; 1; 2]%Z;
      var_alleles := ["a"; "b"; "c"]%string |};
   {| var_index := 1; var_position := 1 # 2; var_genotypes := [0; 1; 2]%Z;
      var_alleles := ["a"; "b"; "c"]%string |}].

(** The site row and the mutation rows one variant contributes, the latter
    without their parent column. *)
Definition site_row_of
  (map_mutations : list Z -> list string -> string * list Mutation)
  (var : Variant) : SiteRow :=
  {| site_position := var_position var;
     site_ancestral_state :=
       fst (map_mutations (var_genotypes var) (var_alleles var)) |}.

Definition row_core (row : MutationRow) : Z * Z * string :=
  (row_site row, row_node row, row_derived_state row).

Definition cores_of
  (map_mutations : list Z -> list string -> string * list Mutation)
  (var : Variant) : list (Z * Z * string) :=
  map (fun m => (var_index var, mut_node m, mut_derived_state m))
      (snd (map_mutations (var_genotypes var) (var_alleles var))).

(** The mutation row the loop adds for an inferred mutation when [offset]
    rows were in the table before the site. *)
Definition shifted_row (var : Variant) (offset : Z) (m : Mutation)
  : MutationRow :=
  {| row_site := var_index var;
     row_node := mut_node m;
     row_parent := if negb (mut_parent m =? NULL)%Z
                   then (mut_parent m + offset)%Z else mut_parent m;
     row_derived_state := mut_derived_state m |}.

(** The parent column the loop writes, read off its body: the rows of a
    variant come after [offset] earlier rows; a [NULL] parent stays [NULL],
    any other parent is moved by [offset]; the next variant starts after the
    rows of this one. *)
Fixpoint shifted_parents
  (map_mutations : list Z -> list string -> string * list Mutation)
  (offset : nat) (variants : list Variant) : list Z :=
  match variants with
  | [] => []
  | var :: rest =>
      let ms := snd (map_mutations (var_genotypes var) (var_alleles var)) in
      map (fun m => if negb (mut_parent m =? NULL)%Z
                    then (mut_parent m + Z.of_nat offset)%Z
                    else mut_parent m) ms
      ++ shifted_parents map_mutations (offset + length ms) rest
  end.

(** * Properties *)

(** ** Generic facts about loops, comprehensions and sums *)

Lemma mapM_ok {A B : Type} (f : A -> result B) (g : A -> B) (l : list A) :
  (forall a, In a l -> f a = Ok (g a)) -> mapM f l = Ok (map g l).
Proof.
  induction l as [|a l IH]; intros H; simpl; [reflexivity|].
  rewrite (H a (or_introl eq_refl)); simpl.
  rewrite IH by (intros; apply H; right; assumption).
  reflexivity.
Qed.

Lemma getitem_nth {A : Type} (l : list A) (i : nat) (d : A) :
  (i < length l)%nat -> getitem l i = Ok (nth i l d).
Proof.
  intros H; unfold getitem.
  rewrite (nth_error_nth' l d H); reflexivity.
Qed.

Lemma nth_map_lt {A B : Type} (g : A -> B) (l : list A) (d : B) (d' : A)
  (k : nat) :
  (k < length l)%nat -> nth k (map g l) d = g (nth k l d').
Proof.
  intros H. rewrite (nth_indep _ d (g d')) by (rewrite length_map; exact H).
  apply map_nth.
Qed.

(** Position of an entry in a row-major enumeration of [r] rows of [c]. *)
Lemma nth_flat_rows {B : Type} (h : nat -> nat -> B) (d : B) (c r a i j : nat) :
  (i < r)%nat -> (j < c)%nat ->
  nth (i * c + j)
      (flat_map (fun i => map (fun j => h i j) (seq 0 c)) (seq a r)) d
  = h (a + i)%nat j.
Proof.
  revert a i; induction r as [|r IH]; intros a i Hi Hj; [lia|].
  simpl seq; simpl flat_map.
  destruct i as [|i].
  - rewrite app_nth1 by (rewrite length_map, length_seq; simpl; lia).
    simpl. rewrite (nth_indep _ d (h a 0%nat))
      by (rewrite length_map, length_seq; lia).
    rewrite (map_nth (fun j => h a j)), seq_nth by lia.
    rewrite Nat.add_0_r; reflexivity.
  - rewrite app_nth2 by (rewrite length_map, length_seq; simpl; lia).
    rewrite length_map, length_seq.
    replace (S i * c + j - c)%nat with (i * c + j)%nat by (simpl; lia).
    rewrite IH by lia. f_equal; lia.
Qed.

Lemma length_flat_rows {B : Type} (h : nat -> nat -> B) (c r a : nat) :
  length (flat_map (fun i => map (fun j => h i j) (seq 0 c)) (seq a r))
  = (r * c)%nat.
Proof.
  revert a; induction r as [|r IH]; intros a; simpl; [reflexivity|].
  rewrite length_app, length_map, length_seq, IH; reflexivity.
Qed.

Lemma range2_rows {B : Type} (g : nat * nat -> B) (n : nat) :
  map g (range2 n)
  = flat_map (fun i => map (fun j => g (i, j)) (seq 0 n)) (seq 0 n).
Proof.
  unfold range2, range. rewrite flat_map_concat_map, concat_map, map_map.
  rewrite flat_map_concat_map. f_equal. apply map_ext; intros i.
  apply map_map.
Qed.

Lemma nth_range2 {B : Type} (g : nat * nat -> B) (d : B) (n i j : nat) :
  (i < n)%nat -> (j < n)%nat ->
  nth (i * n + j) (map g (range2 n)) d = g (i, j).
Proof.
  intros Hi Hj. rewrite range2_rows.
  apply (nth_flat_rows (fun i j => g (i, j)) d n n 0 i j Hi Hj).
Qed.

Lemma length_range2 (n : nat) : length (range2 n) = (n * n)%nat.
Proof.
  rewrite <- (length_map (fun p => p) (range2 n)), range2_rows.
  apply length_flat_rows.
Qed.

Lemma In_range2 (n i j : nat) : In (i, j) (range2 n) -> (i < n /\ j < n)%nat.
Proof.
  unfold range2, range; intros H.
  apply in_flat_map in H as [i' [Hi' H]].
  apply in_map_iff in H as [j' [E Hj']].
  inversion E; subst. apply in_seq in Hi', Hj'. lia.
Qed.

(** ** The topology check *)

Lemma unary_scan_raises (tree : Tree) (l : list node) :
  (exists u, In u l /\ num_children tree u = 1%nat) ->
  for_each l
    (fun u _ =>
       if (num_children tree u =? 1)%nat
       then Raise (ValueError "Unary nodes are not supported"%string)
       else Ok tt) tt
  = Raise (ValueError "Unary nodes are not supported"%string).
Proof.
  induction l as [|v l IH]; intros [u [Hin Hu]]; [destruct Hin|].
  simpl. destruct (num_children tree v =? 1)%nat eqn:E; [reflexivity|].
  simpl. apply IH. destruct Hin as [->|Hin].
  - apply Nat.eqb_neq in E; contradiction.
  - exists u; split; assumption.
Qed.

Lemma unary_scan_passes (tree : Tree) (l : list node) :
  (forall u, In u l -> num_children tree u <> 1%nat) ->
  for_each l
    (fun u _ =>
       if (num_children tree u =? 1)%nat
       then Raise (ValueError "Unary nodes are not supported"%string)
       else Ok tt) tt
  = Ok tt.
Proof.
  induction l as [|v l IH]; intros H; [reflexivity|].
  simpl. destruct (num_children tree v =? 1)%nat eqn:E.
  - apply Nat.eqb_eq in E. exfalso; apply (H v); [left; reflexivity|assumption].
  - simpl. apply IH. intros u Hu; apply H; right; assumption.
Qed.

(** C9: the topology check requires exactly one root: every other number of
    roots, zero included, raises the ValueError "Trees must have one root". *)
Theorem check_cov_tree_inputs_root_count (tree : Tree) :
  length (roots tree) <> 1%nat ->
  check_cov_tree_inputs tree = Raise (ValueError "Trees must have one root"%string).
Proof.
  intros H. unfold check_cov_tree_inputs.
  apply Nat.eqb_neq in H. rewrite H. reflexivity.
Qed.

Lemma check_cov_tree_inputs_root_count_witness :
  roots tree_no_root = [] /\
  check_cov_tree_inputs tree_no_root
  = Raise (ValueError "Trees must have one root"%string).
Proof.
  split; [reflexivity|].
  apply (check_cov_tree_inputs_root_count tree_no_root).
  simpl; lia.
Defined.

(** C2: a tree with two or more roots, or with a node that has exactly one
    child, makes [naive_tree_covariance] raise a ValueError instead of
    returning a matrix; the message names the cause: the root count when it
    is not one, the unary node otherwise, and the two messages differ. *)
Theorem naive_tree_covariance_rejects (tree : Tree) :
  (2 <= length (roots tree))%nat \/
  (exists u, In u (nodes tree) /\ num_children tree u = 1%nat) ->
  naive_tree_covariance tree
  = Raise (ValueError (if (length (roots tree) =? 1)%nat
                       then "Unary nodes are not supported"%string
                       else "Trees must have one root"%string))
  /\ "Unary nodes are not supported"%string <> "Trees must have one root"%string.
Proof.
  intros H. split; [|discriminate].
  unfold naive_tree_covariance, check_cov_tree_inputs.
  destruct (length (roots tree) =? 1)%nat eqn:E; simpl.
  - destruct H as [H|H].
    + apply Nat.eqb_eq in E; lia.
    + rewrite (unary_scan_raises tree (nodes tree) H). reflexivity.
  - reflexivity.
Qed.

Lemma naive_tree_covariance_rejects_witness :
  naive_tree_covariance tree_two_roots
  = Raise (ValueError "Trees must have one root"%string)
  /\ naive_tree_covariance tree_unary
     = Raise (ValueError "Unary nodes are not supported"%string).
Proof.
  split.
  - apply (naive_tree_covariance_rejects tree_two_roots).
    left; simpl; lia.
  - apply (naive_tree_covariance_rejects tree_unary).
    right; exists 3%Z; split; [left; reflexivity|reflexivity].
Defined.

(** ** Sums of rationals *)

Lemma fold_left_Qplus_acc (l : list Q) (a b : Q) :
  a == b -> fold_left Qplus l a == b + fold_left Qplus l 0.
Proof.
  revert a b; induction l as [|x l IH]; intros a b E; simpl.
  - rewrite E; ring.
  - rewrite (IH (a + x) (b + x)) by (rewrite E; reflexivity).
    rewrite (IH (0 + x) x) by ring. ring.
Qed.

Lemma qsum_nil : qsum [] == 0.
Proof. reflexivity. Qed.

Lemma qsum_cons (a : Q) (l : list Q) : qsum (a :: l) == a + qsum l.
Proof.
  unfold qsum; simpl. apply fold_left_Qplus_acc. ring.
Qed.


Lemma qsum_map_ext {A : Type} (f g : A -> Q) (l : list A) :
  (forall a, In a l -> f a == g a) -> qsum (map f l) == qsum (map g l).
Proof.
  induction l as [|a l IH]; intros H; simpl; [reflexivity|].
  rewrite !qsum_cons, IH by (intros; apply H; right; assumption).
  rewrite (H a (or_introl eq_refl)); reflexivity.
Qed.

Lemma qsum_map_zero {A : Type} (f : A -> Q) (l : list A) :
  (forall a, In a l -> f a == 0) -> qsum (map f l) == 0.
Proof.
  induction l as [|a l IH]; intros H; simpl; [reflexivity|].
  rewrite qsum_cons, IH by (intros; apply H; right; assumption).
  rewrite (H a (or_introl eq_refl)); ring.
Qed.

Lemma qsum_map_plus {A : Type} (f g : A -> Q) (l : list A) :
  qsum (map (fun a => f a + g a) l) == qsum (map f l) + qsum (map g l).
Proof.
  induction l as [|a l IH]; simpl; [reflexivity|].
  rewrite !qsum_cons, IH; ring.
Qed.

Lemma qsum_map_scale {A : Type} (c : Q) (f : A -> Q) (l : list A) :
  qsum (map (fun a => c * f a) l) == c * qsum (map f l).
Proof.
  induction l as [|a l IH]; simpl; [rewrite qsum_nil; ring|].
  rewrite !qsum_cons, IH; ring.
Qed.


Lemma qsum_repeat (c : Q) (n : nat) :
  qsum (repeat c n) == inject_Z (Z.of_nat n) * c.
Proof.
  induction n as [|n IH].
  - simpl; rewrite qsum_nil; ring.
  - cbn [repeat]. rewrite qsum_cons, IH, Nat2Z.inj_succ.
    unfold Z.succ; rewrite inject_Z_plus; ring.
Qed.

Lemma inject_nat_nonzero (n : nat) :
  (0 < n)%nat -> ~ inject_Z (Z.of_nat n) == 0.
Proof.
  intros H E. unfold Qeq in E; simpl in E. lia.
Qed.

(** ** The summary function of [genetic_relatedness] *)

Lemma genetic_relatedness_f_value (n num_samples : nat) (x : list Q) :
  length x = n ->
  genetic_relatedness_f n num_samples x
  = Ok (map (fun p =>
               nth (fst p) x 0 * nth (snd p) x 0
               * Qbool (negb (Qeq_bool (qsum x)
                                (inject_Z (Z.of_nat num_samples)))))
            (range2 n)).
Proof.
  intros Hx. unfold genetic_relatedness_f.
  apply mapM_ok. intros [i j] Hin. apply In_range2 in Hin as [Hi Hj].
  rewrite (getitem_nth x i 0), (getitem_nth x j 0) by lia. reflexivity.
Qed.

(** C6: on a fully derived site, [sum(x) == num_samples], the summary function
    of [genetic_relatedness] returns the all-zero vector of length [n * n];
    on every other count vector the entry of the pair [(i, j)], at position
    [i * n + j], is [x[i] * x[j]]. *)
Theorem genetic_relatedness_f_guard (n num_samples : nat) (x : list Q) :
  length x = n ->
  exists v,
    genetic_relatedness_f n num_samples x = Ok v /\ length v = (n * n)%nat /\
    (qsum x == inject_Z (Z.of_nat num_samples) ->
     forall k, (k < n * n)%nat -> nth k v 0 == 0) /\
    (~ qsum x == inject_Z (Z.of_nat num_samples) ->
     forall i j, (i < n)%nat -> (j < n)%nat ->
                 nth (i * n + j) v 0 == nth i x 0 * nth j x 0).
Proof.
  intros Hx. eexists. split; [apply genetic_relatedness_f_value, Hx|].
  split; [rewrite length_map; apply length_range2|]. split.
  - intros E k Hk.
    apply Qeq_bool_iff in E. rewrite E.
    rewrite <- length_range2 in Hk.
    rewrite (nth_map_lt _ _ 0 (0%nat, 0%nat) k Hk). simpl. ring.
  - intros NE i j Hi Hj.
    rewrite nth_range2 by assumption. simpl.
    destruct (Qeq_bool (qsum x) (inject_Z (Z.of_nat num_samples))) eqn:E.
    + apply Qeq_bool_iff in E; contradiction.
    + simpl. ring.
Qed.

Lemma genetic_relatedness_f_guard_witness :
  exists v,
    genetic_relatedness_f 2 2 [1; 1] = Ok v /\ length v = 4%nat /\
    (qsum [1; 1] == inject_Z (Z.of_nat 2) ->
     forall k, (k < 2 * 2)%nat -> nth k v 0 == 0) /\
    (~ qsum [1; 1] == inject_Z (Z.of_nat 2) ->
     forall i j, (i < 2)%nat -> (j < 2)%nat ->
                 nth (i * 2 + j) v 0 == nth i [1; 1] 0 * nth j [1; 1] 0).
Proof.
  apply (genetic_relatedness_f_guard 2 2 [1; 1]). reflexivity.
Defined.

(** ** The summary function of [c_genotype_relatedness] *)

Lemma getitemZ_valid (x : list Q) (i : Z) :
  valid_index (length x) i -> getitemZ x i = Ok (py_nth x i).
Proof.
  unfold valid_index, getitemZ, py_nth; intros H.
  destruct (i <? 0)%Z eqn:Neg.
  - apply Z.ltb_lt in Neg.
    replace (0 <=? i)%Z with false by (symmetry; apply Z.leb_gt; lia).
    replace (- Z.of_nat (length x) <=? i)%Z with true
      by (symmetry; apply Z.leb_le; lia).
    simpl. apply getitem_nth. lia.
  - apply Z.ltb_ge in Neg.
    replace (0 <=? i)%Z with true by (symmetry; apply Z.leb_le; lia).
    replace (i <? Z.of_nat (length x))%Z with true
      by (symmetry; apply Z.ltb_lt; lia).
    simpl. apply getitem_nth. lia.
Qed.

Lemma py_nth_In (x : list Q) (i : Z) :
  valid_index (length x) i -> In (py_nth x i) x.
Proof.
  unfold valid_index, py_nth; intros H. apply nth_In.
  destruct (i <? 0)%Z eqn:Neg;
    [apply Z.ltb_lt in Neg | apply Z.ltb_ge in Neg]; lia.
Qed.

Lemma sum_loop_from (pre x : list Q) (s : Q) :
  for_each (seq (length pre) (length x))
    (fun k sumx => xk <- getitem (pre ++ x) k ;; Ok (sumx + xk)) s
  = Ok (fold_left Qplus x s).
Proof.
  revert pre s; induction x as [|a x IH]; intros pre s; [reflexivity|].
  cbn [length seq for_each].
  unfold getitem at 1. rewrite nth_error_app2, Nat.sub_diag by lia.
  cbn [nth_error bind fold_left].
  specialize (IH (pre ++ [a]) (s + a)).
  rewrite length_app, Nat.add_1_r, <- app_assoc in IH. exact IH.
Qed.

Lemma sum_loop (x : list Q) :
  for_each (range (length x))
    (fun k sumx => xk <- getitem x k ;; Ok (sumx + xk)) 0
  = Ok (qsum x).
Proof. exact (sum_loop_from [] x 0). Qed.

Lemma c_genotype_relatedness_f_value (state_dim : nat) (indexes : list (Z * Z))
  (x : list Q) :
  length x = state_dim -> (0 < state_dim)%nat ->
  valid_pairs state_dim indexes ->
  c_genotype_relatedness_f state_dim indexes x
  = Ok (map (fun p =>
               (py_nth x (fst p) - qsum x / inject_Z (Z.of_nat state_dim))
               * (py_nth x (snd p) - qsum x / inject_Z (Z.of_nat state_dim))
               / 2)
            indexes).
Proof.
  intros Hx Hn Hv. unfold c_genotype_relatedness_f.
  rewrite <- Hx at 1. rewrite sum_loop. cbn [bind].
  replace (state_dim =? 0)%nat with false by (symmetry; apply Nat.eqb_neq; lia).
  cbn [bind]. apply mapM_ok. intros [i j] Hin.
  destruct (Hv _ Hin) as [Hi Hj]. simpl in Hi, Hj. rewrite <- Hx in Hi, Hj.
  rewrite (getitemZ_valid x i Hi), (getitemZ_valid x j Hj). reflexivity.
Qed.

(** With no sample set the mean is an integer division by zero. *)
Lemma c_genotype_relatedness_f_no_sets (indexes : list (Z * Z)) (x : list Q) :
  c_genotype_relatedness_f 0 indexes x = Raise ZeroDivisionError.
Proof. reflexivity. Qed.

(** C4: for a count vector [x] over [n >= 1] sample sets and [m] index pairs
    that are valid Python indices into [x], the summary function of
    [c_genotype_relatedness] returns [m] values, the k-th being
    [(x[i] - mean(x)) * (x[j] - mean(x)) / 2] for the k-th pair [(i, j)], with
    [mean(x) = sum(x) / n]. *)
Theorem c_genotype_relatedness_f_entries (n : nat) (indexes : list (Z * Z))
  (x : list Q) :
  length x = n -> (0 < n)%nat -> valid_pairs n indexes ->
  exists v,
    c_genotype_relatedness_f n indexes x = Ok v /\
    length v = length indexes /\
    forall k i j, nth_error indexes k = Some (i, j) ->
      nth k v 0
      == (py_nth x i - qsum x / inject_Z (Z.of_nat n))
         * (py_nth x j - qsum x / inject_Z (Z.of_nat n)) / 2.
Proof.
  intros Hx Hn Hv. eexists.
  split; [apply c_genotype_relatedness_f_value; assumption|].
  split; [apply length_map|].
  intros k i j Hk.
  assert (Hlt : (k < length indexes)%nat)
    by (apply nth_error_Some; rewrite Hk; discriminate).
  rewrite (nth_map_lt _ indexes 0 (0%Z, 0%Z) k Hlt).
  apply (nth_error_nth indexes k (0%Z, 0%Z)) in Hk. rewrite Hk. simpl.
  reflexivity.
Qed.

Lemma c_genotype_relatedness_f_entries_witness :
  exists v,
    c_genotype_relatedness_f 2 [(0, 1); (-1, -1)]%Z [1; 0] = Ok v /\
    length v = 2%nat /\
    forall k i j, nth_error [(0, 1); (-1, -1)]%Z k = Some (i, j) ->
      nth k v 0
      == (py_nth [1; 0] i - qsum [1; 0] / inject_Z (Z.of_nat 2))
         * (py_nth [1; 0] j - qsum [1; 0] / inject_Z (Z.of_nat 2)) / 2.
Proof.
  apply (c_genotype_relatedness_f_entries 2 [(0, 1); (-1, -1)]%Z [1; 0]).
  - reflexivity.
  - lia.
  - intros p [<-|[<-|[]]]; unfold valid_index; simpl; lia.
Defined.

Lemma qsum_constant (c : Q) (x : list Q) :
  (forall a, In a x -> a == c) ->
  qsum x == inject_Z (Z.of_nat (length x)) * c.
Proof.
  induction x as [|a x IH]; intros H.
  - simpl; rewrite qsum_nil; ring.
  - rewrite qsum_cons, IH by (intros; apply H; right; assumption).
    cbn [length]. rewrite Nat2Z.inj_succ. unfold Z.succ.
    rewrite inject_Z_plus, (H a (or_introl eq_refl)). ring.
Qed.

(** C10: on a constant count vector (all entries equal, for instance all zero
    or all one) over at least one sample set, the summary function of
    [c_genotype_relatedness] returns only zeros, because every [x[i]] equals
    the mean. *)
Theorem c_genotype_relatedness_f_constant (n : nat) (indexes : list (Z * Z))
  (x : list Q) (c : Q) :
  length x = n -> (0 < n)%nat -> valid_pairs n indexes ->
  (forall a, In a x -> a == c) ->
  exists v,
    c_genotype_relatedness_f n indexes x = Ok v /\
    length v = length indexes /\
    forall k, (k < length indexes)%nat -> nth k v 0 == 0.
Proof.
  intros Hx Hn Hv Hc. eexists.
  split; [apply c_genotype_relatedness_f_value; assumption|].
  split; [apply length_map|].
  intros k Hk. rewrite (nth_map_lt _ indexes 0 (0%Z, 0%Z) k Hk).
  cbv beta. set (p := nth k indexes (0%Z, 0%Z)).
  destruct (Hv p (nth_In indexes (0%Z, 0%Z) Hk)) as [Hi Hj].
  rewrite <- Hx in Hi, Hj.
  assert (Ei := Hc _ (py_nth_In x _ Hi)).
  assert (Ej := Hc _ (py_nth_In x _ Hj)).
  assert (Es := qsum_constant c x Hc). rewrite Hx in Es.
  assert (NZ := inject_nat_nonzero n Hn).
  rewrite Ei, Ej, Es. field. exact NZ.
Qed.

Lemma c_genotype_relatedness_f_constant_witness :
  exists v,
    c_genotype_relatedness_f 3 [(0, 0); (0, 2); (1, -1)]%Z [1; 1; 1] = Ok v /\
    length v = 3%nat /\
    forall k, (k < 3)%nat -> nth k v 0 == 0.
Proof.
  apply (c_genotype_relatedness_f_constant 3 [(0, 0); (0, 2); (1, -1)]%Z
           [1; 1; 1] 1).
  - reflexivity.
  - lia.
  - intros p [<-|[<-|[<-|[]]]]; unfold valid_index; simpl; lia.
  - intros a [<-|[<-|[<-|[]]]]; reflexivity.
Defined.

(** ** Arrays *)

Lemma get_build (r c : nat) (f : nat -> nat -> Q) (i j : nat) :
  (i < r)%nat -> (j < c)%nat -> Np.get (Np.build r c f) i j = f i j.
Proof.
  intros Hi Hj. unfold Np.get, Np.build; cbn [Np.data].
  rewrite (nth_map_lt _ (seq 0 r) [] 0%nat i) by (rewrite length_seq; exact Hi).
  rewrite seq_nth by exact Hi.
  rewrite (nth_map_lt _ (seq 0 c) 0 0%nat j) by (rewrite length_seq; exact Hj).
  rewrite seq_nth by exact Hj. reflexivity.
Qed.

Lemma wf_build (r c : nat) (f : nat -> nat -> Q) : Np.wf (Np.build r c f).
Proof.
  unfold Np.wf, Np.build; cbn. split.
  - rewrite length_map, length_seq; reflexivity.
  - apply Forall_forall. intros row Hin.
    apply in_map_iff in Hin as [i [<- _]].
    rewrite length_map, length_seq; reflexivity.
Qed.

Lemma eqb_equiv (A B : Np.ndarray2) : Np.eqb A B = true -> Np.equiv A B.
Proof.
  unfold Np.eqb, Np.equiv. intros H.
  apply andb_prop in H as [H H2]. apply andb_prop in H as [H0 H1].
  apply Nat.eqb_eq in H0, H1. repeat split; try assumption.
  intros i j Hi Hj. rewrite forallb_forall in H2.
  specialize (H2 i (proj2 (in_seq _ _ _) (conj (Nat.le_0_l i) Hi))).
  rewrite forallb_forall in H2.
  specialize (H2 j (proj2 (in_seq _ _ _) (conj (Nat.le_0_l j) Hj))).
  apply Qeq_bool_iff; exact H2.
Qed.


Lemma map_nth_seq (row : list Q) :
  map (fun j => nth j row 0) (seq 0 (length row)) = row.
Proof.
  apply (nth_ext _ _ 0 0).
  - rewrite length_map, length_seq; reflexivity.
  - intros j Hj. rewrite length_map, length_seq in Hj.
    rewrite (nth_map_lt _ (seq 0 (length row)) 0 0%nat j)
      by (rewrite length_seq; exact Hj).
    rewrite seq_nth by exact Hj. reflexivity.
Qed.

(** ** The genotype covariance reducer *)

Lemma get_genotype_matrix (ts : TreeSequence) (k s : nat) :
  Np.get (genotype_matrix ts) k s
  = inject_Z (nth s (nth k (sites ts) []) 0%Z).
Proof.
  unfold Np.get, genotype_matrix; cbn [Np.data].
  change (@nil Q) with (map inject_Z []). rewrite map_nth.
  change 0 with (inject_Z 0). rewrite map_nth. reflexivity.
Qed.

Lemma naive_genotype_covariance_value (ts : TreeSequence) :
  naive_genotype_covariance ts
  = Ok (Np.build (num_samples ts) (num_samples ts)
          (fun i j =>
             qsum (map (fun k => Np.get (centred ts) i k
                                 * Np.get (Np.transpose (centred ts)) k j)
                       (seq 0 (length (sites ts)))))).
Proof.
  unfold naive_genotype_covariance, Np.sub_broadcast.
  replace (length (Np.mean_axis1 (genotype_matrix ts)))
    with (length (sites ts))
    by (unfold Np.mean_axis1, genotype_matrix; cbn; rewrite !length_map;
        reflexivity).
  cbn [Np.transpose Np.build Np.shape0 Np.shape1 genotype_matrix].
  rewrite Nat.eqb_refl. cbn [bind].
  unfold Np.matmul.
  cbn [Np.transpose Np.build Np.shape0 Np.shape1].
  rewrite Nat.eqb_refl. reflexivity.
Qed.

Lemma nth_mean_axis1 (ts : TreeSequence) (k : nat) :
  wf_ts ts -> (k < length (sites ts))%nat ->
  nth k (Np.mean_axis1 (genotype_matrix ts)) 0 = site_mean ts k.
Proof.
  intros Hwf Hk. unfold Np.mean_axis1, site_mean.
  cbn [genotype_matrix Np.data Np.shape1].
  rewrite (nth_map_lt _ _ 0 [] k) by (rewrite length_map; exact Hk).
  f_equal. f_equal.
  change (@nil Q) with (map inject_Z []). rewrite map_nth.
  assert (Hlen : length (nth k (sites ts) []) = num_samples ts).
  { unfold wf_ts in Hwf. rewrite Forall_forall in Hwf.
    apply Hwf, nth_In, Hk. }
  rewrite <- (map_nth_seq (map inject_Z (nth k (sites ts) []))) at 1.
  rewrite length_map, Hlen. apply map_ext. intros j.
  rewrite get_genotype_matrix.
  change 0 with (inject_Z 0). rewrite map_nth. reflexivity.
Qed.

Lemma get_centred (ts : TreeSequence) (s k : nat) :
  wf_ts ts -> (s < num_samples ts)%nat -> (k < length (sites ts))%nat ->
  Np.get (centred ts) s k = spec_centred ts s k.
Proof.
  intros Hwf Hs Hk. unfold centred, spec_centred.
  rewrite get_build by assumption.
  unfold Np.transpose. rewrite get_build by assumption.
  rewrite nth_mean_axis1 by assumption. reflexivity.
Qed.

Lemma get_naive_genotype_covariance (ts : TreeSequence) (a b : nat) :
  wf_ts ts -> (a < num_samples ts)%nat -> (b < num_samples ts)%nat ->
  Np.get (Np.build (num_samples ts) (num_samples ts)
            (fun i j =>
               qsum (map (fun k => Np.get (centred ts) i k
                                   * Np.get (Np.transpose (centred ts)) k j)
                         (seq 0 (length (sites ts)))))) a b
  == qsum (map (fun k => spec_centred ts a k * spec_centred ts b k)
               (seq 0 (length (sites ts)))).
Proof.
  intros Hwf Ha Hb. rewrite get_build by assumption.
  apply qsum_map_ext. intros k Hk. apply in_seq in Hk.
  unfold Np.transpose at 1.
  rewrite get_build by (unfold centred; cbn; lia).
  rewrite !get_centred by (assumption || lia). reflexivity.
Qed.

(** C5: on a well-shaped genotype matrix the reducer returns the n-by-n
    matrix [A . A^T] with [A[s][k] = G[k][s] - mean_j G[k][j]]: each site is
    centred by its mean over the samples, and nothing is divided by the number
    of sites. *)
Theorem naive_genotype_covariance_spec (ts : TreeSequence) :
  wf_ts ts ->
  exists C, naive_genotype_covariance ts = Ok C /\
            Np.equiv C (spec_covariance ts).
Proof.
  intros Hwf. eexists. split; [apply naive_genotype_covariance_value|].
  unfold Np.equiv, spec_covariance. cbn [Np.shape0 Np.shape1 Np.build].
  repeat split. intros i j Hi Hj.
  rewrite get_naive_genotype_covariance by assumption.
  rewrite get_build by assumption. reflexivity.
Qed.

Lemma naive_genotype_covariance_spec_witness :
  exists C, naive_genotype_covariance ts_scenario01 = Ok C /\
            Np.equiv C (spec_covariance ts_scenario01).
Proof.
  apply (naive_genotype_covariance_spec ts_scenario01).
  repeat constructor.
Defined.

(** C3, as the code has it: the reducer validates nothing and never raises.
    It always returns an n-by-n array, n the number of samples; with no site
    every entry is zero, with no sample the array is empty. *)
Theorem naive_genotype_covariance_total (ts : TreeSequence) :
  exists C,
    naive_genotype_covariance ts = Ok C /\
    Np.shape0 C = num_samples ts /\ Np.shape1 C = num_samples ts /\
    Np.wf C /\
    (sites ts = [] ->
     forall i j, (i < num_samples ts)%nat -> (j < num_samples ts)%nat ->
                 Np.get C i j == 0) /\
    (num_samples ts = 0%nat -> Np.data C = []).
Proof.
  eexists. split; [apply naive_genotype_covariance_value|].
  split; [reflexivity|]. split; [reflexivity|]. split; [apply wf_build|].
  split.
  - intros E i j Hi Hj. rewrite get_build by assumption.
    rewrite E. reflexivity.
  - intros E. rewrite E. reflexivity.
Qed.

(** C3, refuted: with two samples and no site, and with no sample and two
    sites, the reducer returns a matrix and no ValueError. *)
Lemma naive_genotype_covariance_no_error :
  sites ts_no_sites = [] /\
  naive_genotype_covariance ts_no_sites = Ok (Np.zeros 2 2) /\
  num_samples ts_no_samples = 0%nat /\
  naive_genotype_covariance ts_no_samples = Ok (Np.zeros 0 0) /\
  ~ (forall ts, (sites ts = [] \/ num_samples ts = 0%nat) ->
                exists msg, naive_genotype_covariance ts
                            = Raise (ValueError msg)).
Proof.
  repeat split.
  intros H. destruct (H ts_no_sites (or_introl eq_refl)) as [msg E].
  discriminate E.
Qed.

(** ** Writing into an array *)

Lemma length_update {X : Type} (l : list X) (i : nat) (g : X -> X) :
  length (Np.update l i g) = length l.
Proof.
  revert i; induction l as [|x l IH]; intros [|i]; simpl; auto.
Qed.

Lemma nth_update_same {X : Type} (l : list X) (i : nat) (g : X -> X) (d : X) :
  (i < length l)%nat -> nth i (Np.update l i g) d = g (nth i l d).
Proof.
  revert i; induction l as [|x l IH]; intros [|i] H; simpl in *;
    try lia; [reflexivity|apply IH; lia].
Qed.

Lemma nth_update_other {X : Type} (l : list X) (i k : nat) (g : X -> X)
  (d : X) :
  k <> i -> nth k (Np.update l i g) d = nth k l d.
Proof.
  revert i k; induction l as [|x l IH]; intros [|i] [|k] H; simpl;
    try reflexivity; try contradiction; apply IH; lia.
Qed.

Lemma Forall_update {X : Type} (P : X -> Prop) (l : list X) (i : nat)
  (g : X -> X) :
  Forall P l -> (forall x, P x -> P (g x)) -> Forall P (Np.update l i g).
Proof.
  intros H Hg; revert i; induction H as [|x l Hx Hl IH]; intros [|i]; simpl;
    constructor; auto.
Qed.

Lemma setitem2_ok (A : Np.ndarray2) (i j : nat) (v : Q) :
  Np.wf A -> (i < Np.shape0 A)%nat -> (j < Np.shape1 A)%nat ->
  exists A',
    Np.setitem2 A i j v = Ok A' /\ Np.wf A' /\
    Np.shape0 A' = Np.shape0 A /\ Np.shape1 A' = Np.shape1 A /\
    Np.get A' i j = v /\
    forall i' j', (i', j') <> (i, j) -> Np.get A' i' j' = Np.get A i' j'.
Proof.
  intros [Hlen Hrows] Hi Hj. unfold Np.setitem2.
  replace (i <? Np.shape0 A)%nat with true by (symmetry; apply Nat.ltb_lt; lia).
  replace (j <? Np.shape1 A)%nat with true by (symmetry; apply Nat.ltb_lt; lia).
  cbn [andb]. eexists. split; [reflexivity|].
  assert (Hrow : length (nth i (Np.data A) []) = Np.shape1 A).
  { rewrite Forall_forall in Hrows. apply Hrows, nth_In. lia. }
  split; [|split; [reflexivity|split; [reflexivity|split]]].
  - unfold Np.wf; cbn. split.
    + rewrite length_update; exact Hlen.
    + apply Forall_update; [exact Hrows|].
      intros row Hr. rewrite length_update; exact Hr.
  - unfold Np.get; cbn.
    rewrite nth_update_same by lia.
    rewrite nth_update_same by lia. reflexivity.
  - intros i' j' Hne. unfold Np.get; cbn.
    destruct (Nat.eq_dec i' i) as [->|Hi'].
    + rewrite nth_update_same by lia.
      rewrite nth_update_other; [reflexivity|].
      intros ->; apply Hne; reflexivity.
    + rewrite nth_update_other by exact Hi'. reflexivity.
Qed.

Lemma getitem2_ok (A : Np.ndarray2) (i j : nat) :
  (i < Np.shape0 A)%nat -> (j < Np.shape1 A)%nat ->
  Np.getitem2 A i j = Ok (Np.get A i j).
Proof.
  intros Hi Hj. unfold Np.getitem2.
  replace (i <? Np.shape0 A)%nat with true by (symmetry; apply Nat.ltb_lt; lia).
  replace (j <? Np.shape1 A)%nat with true by (symmetry; apply Nat.ltb_lt; lia).
  reflexivity.
Qed.

(** A loop whose body keeps an invariant and never raises returns a state
    that satisfies the invariant. *)
Lemma for_each_invariant {A S : Type} (P : S -> Prop) (l : list A)
  (body : A -> S -> result S) (s : S) :
  (forall a s, In a l -> P s -> exists s', body a s = Ok s' /\ P s') ->
  P s -> exists s', for_each l body s = Ok s' /\ P s'.
Proof.
  revert s; induction l as [|a l IH]; intros s Hbody Hs.
  - exists s; split; [reflexivity|exact Hs].
  - destruct (Hbody a s (or_introl eq_refl) Hs) as [s1 [E1 H1]].
    cbn [for_each]. rewrite E1. cbn [bind].
    apply IH; [|exact H1].
    intros b t Hb Ht. apply Hbody; [right; exact Hb|exact Ht].
Qed.

Lemma In_combinations (n i j : nat) :
  In (i, j) (combinations_with_replacement2 n) <-> (i <= j < n)%nat.
Proof.
  unfold combinations_with_replacement2. rewrite in_flat_map. split.
  - intros [i' [Hi' H]]. apply in_map_iff in H as [j' [E Hj']].
    inversion E; subst. apply in_seq in Hi', Hj'. lia.
  - intros H. exists i. split; [apply in_seq; lia|].
    apply in_map_iff. exists j. split; [reflexivity|apply in_seq; lia].
Qed.


(** ** Symmetry of the tree covariance *)

Lemma get_zeros_eq (r c i j : nat) : Np.get (Np.zeros r c) i j = 0.
Proof.
  unfold Np.zeros.
  destruct (Nat.lt_ge_cases i r) as [Hi|Hi];
    [destruct (Nat.lt_ge_cases j c) as [Hj|Hj]|].
  - rewrite get_build by assumption. reflexivity.
  - unfold Np.get. rewrite nth_overflow; [reflexivity|].
    destruct (wf_build r c (fun _ _ => 0)) as [_ Hrows].
    rewrite Forall_forall in Hrows.
    rewrite (Hrows (nth i (Np.data (Np.build r c (fun _ _ => 0))) [])).
    + exact Hj.
    + apply nth_In. cbn. rewrite length_map, length_seq. exact Hi.
  - unfold Np.get.
    rewrite (nth_overflow (Np.data _))
      by (cbn; rewrite length_map, length_seq; exact Hi).
    destruct j; reflexivity.
Qed.

Lemma square_sym_zeros (n : nat) : square_sym n (Np.zeros n n).
Proof.
  unfold square_sym. split; [apply wf_build|].
  split; [reflexivity|]. split; [reflexivity|].
  intros i j. rewrite !get_zeros_eq. reflexivity.
Qed.

(** The two writes of one round of the loop of [naive_tree_covariance]. *)
Lemma mirror_step (n n1 n2 : nat) (v : Q) (cov : Np.ndarray2) :
  square_sym n cov -> (n1 < n)%nat -> (n2 < n)%nat ->
  exists cov2,
    (cov1 <- Np.setitem2 cov n1 n2 v ;;
     w <- Np.getitem2 cov1 n1 n2 ;;
     Np.setitem2 cov1 n2 n1 w) = Ok cov2 /\
    square_sym n cov2.
Proof.
  intros [Hwf [H0 [H1 Hsym]]] Hn1 Hn2.
  destruct (setitem2_ok cov n1 n2 v Hwf) as [c1 [E1 [W1 [S0 [S1 [G1 O1]]]]]];
    try lia.
  rewrite E1. cbn [bind].
  rewrite getitem2_ok by lia. cbn [bind]. rewrite G1.
  destruct (setitem2_ok c1 n2 n1 v W1) as [c2 [E2 [W2 [T0 [T1 [G2 O2]]]]]];
    try lia.
  exists c2. split; [exact E2|].
  split; [exact W2|]. split; [lia|]. split; [lia|].
  assert (Hval : forall i j,
             Np.get c2 i j
             = if (((i =? n1) && (j =? n2)) || ((i =? n2) && (j =? n1)))%nat
               then v else Np.get cov i j).
  { intros i j.
    destruct (Nat.eqb_spec i n2) as [->|Hi2];
      [destruct (Nat.eqb_spec j n1) as [->|Hj1]|].
    - rewrite G2. rewrite orb_true_r. reflexivity.
    - rewrite orb_false_r.
      rewrite O2 by (intros E; inversion E; contradiction).
      destruct (Nat.eqb_spec n2 n1) as [E12|N12];
        [destruct (Nat.eqb_spec j n2) as [->|Hj2]|].
      + subst. contradiction.
      + cbn. apply O1. intros E; inversion E; contradiction.
      + cbn. apply O1. intros E; inversion E; subst; contradiction.
    - rewrite andb_false_l, orb_false_r.
      rewrite O2 by (intros E; inversion E; contradiction).
      destruct (Nat.eqb_spec i n1) as [->|Hi1];
        [destruct (Nat.eqb_spec j n2) as [->|Hj2]|].
      + cbn. exact G1.
      + cbn. apply O1. intros E; inversion E; contradiction.
      + cbn. apply O1. intros E; inversion E; contradiction. }
  intros i j. rewrite (Hval i j), (Hval j i), (Hsym i j).
  rewrite (orb_comm ((j =? n1) && (i =? n2))%nat).
  rewrite (andb_comm (j =? n2)%nat), (andb_comm (j =? n1)%nat).
  reflexivity.
Qed.

Lemma naive_tree_covariance_accepts (tree : Tree) (r : node) :
  roots tree = [r] ->
  (forall u, In u (nodes tree) -> num_children tree u <> 1%nat) ->
  exists cov,
    naive_tree_covariance tree = Ok cov /\
    square_sym (length (samples tree)) cov.
Proof.
  intros Hr Hu. unfold naive_tree_covariance, check_cov_tree_inputs.
  rewrite Hr. cbn [length Nat.eqb negb].
  rewrite (unary_scan_passes tree (nodes tree) Hu). cbn [bind].
  apply (for_each_invariant (square_sym (length (samples tree)))).
  - intros [n1 n2] cov Hin Hcov.
    apply In_combinations in Hin.
    rewrite (getitem_nth (samples tree) n1 0%Z) by lia.
    rewrite (getitem_nth (samples tree) n2 0%Z) by lia.
    cbn [bind]. unfold root. rewrite Hr. cbn [bind].
    apply mirror_step; [exact Hcov|lia|lia].
  - apply square_sym_zeros.
Qed.

(** ** Filling the upper triangle and reflecting it *)


Lemma get_transpose (M : Np.ndarray2) (i j : nat) :
  (i < Np.shape1 M)%nat -> (j < Np.shape0 M)%nat ->
  Np.get (Np.transpose M) i j = Np.get M j i.
Proof.
  intros Hi Hj. unfold Np.transpose.
  rewrite get_build by assumption. reflexivity.
Qed.





(** ** The sample-count statistic as a sum over sites and alleles *)






(** ** Count vectors of singleton sample sets at a biallelic site *)





Lemma qsum_map_const {A : Type} (c : Q) (l : list A) :
  qsum (map (fun _ => c) l) == inject_Z (Z.of_nat (length l)) * c.
Proof.
  rewrite <- qsum_repeat. clear. induction l as [|a l IH]; cbn [map length repeat].
  - reflexivity.
  - rewrite !qsum_cons, IH. reflexivity.
Qed.








(** ** The three reducers on biallelic sites *)

Lemma map_nth_seq_gen {A B : Type} (h : A -> B) (l : list A) (d : A) :
  map (fun k => h (nth k l d)) (seq 0 (length l)) = map h l.
Proof.
  apply (nth_ext _ _ (h d) (h d)).
  - rewrite !length_map, length_seq; reflexivity.
  - intros k Hk. rewrite length_map, length_seq in Hk.
    rewrite (nth_map_lt _ (seq 0 (length l)) (h d) 0%nat k)
      by (rewrite length_seq; exact Hk).
    rewrite seq_nth by exact Hk. rewrite map_nth. reflexivity.
Qed.

Lemma get_centred_cen (ts : TreeSequence) (i k : nat) :
  (i < num_samples ts)%nat -> (k < length (sites ts))%nat ->
  Np.get (centred ts) i k = cen (num_samples ts) (nth k (sites ts) []) i.
Proof.
  intros Hi Hk. unfold centred, cen. rewrite get_build by assumption.
  rewrite get_transpose by (cbn; assumption).
  rewrite get_genotype_matrix.
  unfold Np.mean_axis1. cbn [genotype_matrix Np.data Np.shape1].
  rewrite (nth_map_lt _ _ 0 [] k) by (rewrite length_map; exact Hk).
  change (@nil Q) with (map inject_Z []). rewrite map_nth. reflexivity.
Qed.

(** Entry [(a, b)] of the genotype covariance as a sum over the sites. *)
Lemma naive_entry (ts : TreeSequence) (a b : nat) :
  (a < num_samples ts)%nat -> (b < num_samples ts)%nat ->
  Np.get (Np.build (num_samples ts) (num_samples ts)
            (fun i j =>
               qsum (map (fun k => Np.get (centred ts) i k
                                   * Np.get (Np.transpose (centred ts)) k j)
                         (seq 0 (length (sites ts)))))) a b
  == qsum (map (fun row => cen (num_samples ts) row a
                           * cen (num_samples ts) row b)
               (sites ts)).
Proof.
  intros Ha Hb. rewrite get_build by assumption.
  rewrite <- (map_nth_seq_gen
                (fun row => cen (num_samples ts) row a
                            * cen (num_samples ts) row b) (sites ts) []).
  apply qsum_map_ext. intros k Hk. apply in_seq in Hk.
  rewrite get_transpose by (unfold centred; cbn; lia).
  rewrite !get_centred_cen by lia. reflexivity.
Qed.



Lemma genotype_relatedness_f_value (n : nat) (x : list Q) :
  length x = n ->
  genotype_relatedness_f n x
  = Ok (map (fun p =>
               (nth (fst p) x 0 - qsum x / inject_Z (Z.of_nat n))
               * (nth (snd p) x 0 - qsum x / inject_Z (Z.of_nat n)))
            (range2 n)).
Proof.
  intros Hx. unfold genotype_relatedness_f.
  apply mapM_ok. intros [i j] Hin. apply In_range2 in Hin as [Hi Hj].
  rewrite (getitem_nth x i 0), (getitem_nth x j 0) by lia. reflexivity.
Qed.




Lemma py_nth_nat (x : list Q) (i : nat) : py_nth x (Z.of_nat i) = nth i x 0.
Proof.
  unfold py_nth.
  replace (Z.of_nat i <? 0)%Z with false by (symmetry; apply Z.ltb_ge; lia).
  rewrite Nat2Z.id. reflexivity.
Qed.





(** ** Agreement of the reducers *)

Lemma equiv_of_entries (n : nat) (A B : Np.ndarray2) (e : nat -> nat -> Q) :
  Np.shape0 A = n -> Np.shape1 A = n -> Np.shape0 B = n -> Np.shape1 B = n ->
  (forall i j, (i < n)%nat -> (j < n)%nat -> Np.get A i j == e i j) ->
  (forall i j, (i < n)%nat -> (j < n)%nat -> Np.get B i j == e i j) ->
  Np.equiv A B.
Proof.
  intros A0 A1 B0 B1 HA HB. unfold Np.equiv.
  split; [lia|]. split; [lia|]. rewrite A0, A1. intros i j Hi Hj.
  rewrite (HA i j Hi Hj), (HB i j Hi Hj). reflexivity.
Qed.




(** ** The one-site scenario *)

(** C8, as the code and the modelled statistic have it: for
    [G = [[0,0,0,0,1,2]]] the genotype covariance reducer computes the site
    mean 1/2, the centred vector [-1/2,-1/2,-1/2,-1/2,1/2,3/2] and the outer
    product of that vector with itself, with [C[0][0] = 1/4],
    [C[0][4] = -1/4] and [C[4][5] = 3/4].  The sample-count path does not
    reproduce this matrix at this three-allele site (it gives 1/12, -1/6 and
    1/12 at those entries); it reproduces the genotype covariance of the
    0/1 matrix [[0,0,0,0,1,1]]. *)
Theorem scenario_genotype_covariance :
  Np.veqb (Np.mean_axis1 (genotype_matrix ts_scenario)) [1 # 2] = true /\
  (exists A,
      Np.sub_broadcast (Np.transpose (genotype_matrix ts_scenario))
        (Np.mean_axis1 (genotype_matrix ts_scenario)) = Ok A /\
      Np.equiv A (Np.mk 6 1 (map (fun c => [c]) scenario_centred))) /\
  (exists C,
      naive_genotype_covariance ts_scenario = Ok C /\
      Np.equiv C (outer scenario_centred scenario_centred) /\
      Np.get C 0 0 == 1 # 4 /\ Np.get C 0 4 == - (1 # 4) /\
      Np.get C 4 5 == 3 # 4) /\
  (exists M2 M4,
      verify_cov2 ts_scenario = Ok M2 /\ verify_cov4 ts_scenario = Ok M4 /\
      Np.equiv M2 M4 /\
      Np.get M4 0 0 == 1 # 12 /\ Np.get M4 0 4 == - (1 # 6) /\
      Np.get M4 4 5 == 1 # 12) /\
  (exists C M2 M4,
      naive_genotype_covariance ts_scenario01 = Ok C /\
      verify_cov2 ts_scenario01 = Ok M2 /\
      verify_cov4 ts_scenario01 = Ok M4 /\
      Np.equiv C M2 /\ Np.equiv C M4).
Proof.
  split; [vm_compute; reflexivity|].
  split.
  { eexists. split; [vm_compute; reflexivity|].
    apply eqb_equiv. vm_compute; reflexivity. }
  split.
  { eexists. split; [vm_compute; reflexivity|].
    split; [apply eqb_equiv; vm_compute; reflexivity|].
    repeat split; vm_compute; reflexivity. }
  split.
  { eexists; eexists. split; [vm_compute; reflexivity|].
    split; [vm_compute; reflexivity|].
    split; [apply eqb_equiv; vm_compute; reflexivity|].
    repeat split; vm_compute; reflexivity. }
  eexists; eexists; eexists. split; [vm_compute; reflexivity|].
  split; [vm_compute; reflexivity|]. split; [vm_compute; reflexivity|].
  split; apply eqb_equiv; vm_compute; reflexivity.
Qed.

(** C8, refuted in its last part: on [G = [[0,0,0,0,1,2]]] the matrix of the
    sample-count path is not within tolerance of the genotype covariance. *)
Lemma scenario_not_reproduced :
  exists C M,
    naive_genotype_covariance ts_scenario = Ok C /\
    verify_cov4 ts_scenario = Ok M /\
    Np.get C 4 5 == 3 # 4 /\ Np.get M 4 5 == 1 # 12 /\
    ~ rel_close rtol M C /\ ~ rel_close rtol C M /\ ~ Np.equiv M C.
Proof.
  eexists; eexists.
  split; [vm_compute; reflexivity|].
  split; [vm_compute; reflexivity|].
  split; [vm_compute; reflexivity|].
  split; [vm_compute; reflexivity|].
  split; [|split]; intros [_ [_ H]];
    specialize (H 4%nat 5%nat ltac:(cbn; lia) ltac:(cbn; lia));
    vm_compute in H; try (apply H; reflexivity); discriminate H.
Qed.

(** ** The tree-sequence covariance *)

(** A tree that fails the topology check makes [naive_ts_covariance] raise,
    as [test_errors_multiroot_tree] expects. *)
Lemma naive_ts_covariance_rejects (ts : TreeSequence) (tree : Tree)
  (rest : list Tree) :
  trees ts = tree :: rest -> (2 <= length (roots tree))%nat ->
  naive_ts_covariance ts = Raise (ValueError "Trees must have one root"%string).
Proof.
  intros Ht Hr. unfold naive_ts_covariance. rewrite Ht. cbn [for_each].
  unfold naive_tree_covariance, check_cov_tree_inputs.
  replace (length (roots tree) =? 1)%nat with false
    by (symmetry; apply Nat.eqb_neq; lia).
  reflexivity.
Qed.

(** ** The model at work *)

Example naive_tree_covariance_cherry :
  naive_tree_covariance tree_cherry = Ok (Np.mk 2 2 [[1 - 0; 1 - 1]; [1 - 1; 1 - 0]]).
Proof. reflexivity. Qed.

Example combinations_of_three :
  combinations_with_replacement2 3
  = [(0, 0); (0, 1); (0, 2); (1, 1); (1, 2); (2, 2)]%nat.
Proof. reflexivity. Qed.

Example count_vectors_of_the_scenario :
  map (count_vector ts_scenario (singleton_sets ts_scenario) [0; 0; 0; 0; 1; 2]%Z)
      (site_alleles false [0; 0; 0; 0; 1; 2]%Z)
  = [[1; 1; 1; 1; 0; 0]; [0; 0; 0; 0; 1; 0]; [0; 0; 0; 0; 0; 1]].
Proof. reflexivity. Qed.

Example polarised_alleles_of_the_scenario :
  site_alleles true [0; 0; 0; 0; 1; 2]%Z = [1; 2]%Z.
Proof. reflexivity. Qed.

Example getitemZ_wraps :
  getitemZ [1; 2; 3] (-1) = Ok 3 /\ getitemZ [1; 2; 3] 3 = Raise IndexError
  /\ getitemZ [1; 2; 3] (-4) = Raise IndexError.
Proof. repeat split. Qed.

(** * Further properties of the test module *)

(** ** The topology check accepts exactly the single-root trees without
    unary nodes *)

(** Whether a node list holds a unary node is decidable. *)
Lemma classic_unary (tree : Tree) (l : list node) :
  (exists u, In u l /\ num_children tree u = 1%nat)
  \/ (forall u, In u l -> num_children tree u <> 1%nat).
Proof.
  induction l as [|v l IH].
  - right. intros u [].
  - destruct (Nat.eq_dec (num_children tree v) 1) as [E|NE].
    + left. exists v. split; [left; reflexivity|exact E].
    + destruct IH as [[u [Hin Hu]]|Hall].
      * left. exists u. split; [right; exact Hin|exact Hu].
      * right. intros u [<-|Hin]; [exact NE|apply Hall; exact Hin].
Qed.

(** X1: [check_cov_tree_inputs] returns normally exactly on the trees that
    have one root and no node with exactly one child, and the only exceptions
    it raises are its two ValueErrors. *)
Theorem check_cov_tree_inputs_accepts_iff (tree : Tree) :
  (check_cov_tree_inputs tree = Ok tt <-> tree_accepted tree) /\
  (forall e, check_cov_tree_inputs tree = Raise e ->
             e = ValueError "Trees must have one root"%string
             \/ e = ValueError "Unary nodes are not supported"%string).
Proof.
  unfold check_cov_tree_inputs, tree_accepted.
  destruct (Nat.eqb_spec (length (roots tree)) 1) as [E|NE]; cbn [negb].
  - destruct (classic_unary tree (nodes tree)) as [Hex|Hall].
    + rewrite (unary_scan_raises tree (nodes tree) Hex). split.
      * split; [discriminate|].
        intros [_ H]. destruct Hex as [u [Hin Hu]].
        exfalso; apply (H u Hin Hu).
      * intros e He. injection He as <-. right; reflexivity.
    + rewrite (unary_scan_passes tree (nodes tree) Hall). split.
      * split; [intros _; split; assumption|reflexivity].
      * intros e He; discriminate He.
  - split.
    + split; [discriminate|]. intros [H _]; contradiction.
    + intros e He. injection He as <-. left; reflexivity.
Qed.

(** ** The entries of the tree covariance *)

Lemma mirror_step_values (n1 n2 : nat) (v : Q) (cov : Np.ndarray2) :
  Np.wf cov -> (n1 < Np.shape0 cov)%nat -> (n2 < Np.shape0 cov)%nat ->
  Np.shape1 cov = Np.shape0 cov ->
  exists cov2,
    (cov1 <- Np.setitem2 cov n1 n2 v ;;
     w <- Np.getitem2 cov1 n1 n2 ;;
     Np.setitem2 cov1 n2 n1 w) = Ok cov2 /\
    Np.wf cov2 /\ Np.shape0 cov2 = Np.shape0 cov /\
    Np.shape1 cov2 = Np.shape1 cov /\
    Np.get cov2 n1 n2 = v /\ Np.get cov2 n2 n1 = v /\
    forall i j, (i, j) <> (n1, n2) -> (i, j) <> (n2, n1) ->
                Np.get cov2 i j = Np.get cov i j.
Proof.
  intros Hwf Hn1 Hn2 Hsq.
  destruct (setitem2_ok cov n1 n2 v Hwf) as [c1 [E1 [W1 [S0 [S1 [G1 O1]]]]]];
    try lia.
  rewrite E1. cbn [bind].
  rewrite getitem2_ok by lia. cbn [bind]. rewrite G1.
  destruct (setitem2_ok c1 n2 n1 v W1) as [c2 [E2 [W2 [T0 [T1 [G2 O2]]]]]];
    try lia.
  exists c2. split; [exact E2|]. split; [exact W2|].
  split; [lia|]. split; [lia|]. split; [|split; [exact G2|]].
  - destruct (Nat.eq_dec n1 n2) as [->|Hne]; [exact G2|].
    rewrite O2 by (intros E; injection E as Ea Eb; contradiction).
    exact G1.
  - intros i j H1 H2. rewrite O2 by exact H2. apply O1; exact H1.
Qed.

(** The loop of [naive_tree_covariance] over any list of ordered in-range
    pairs: the pairs of the list hold their value on both sides of the
    diagonal, every other entry is untouched. *)
Lemma tree_loop_values (tree : Tree) (r : node) (idx : list (nat * nat)) :
  roots tree = [r] ->
  forall cov,
    Np.wf cov -> Np.shape0 cov = length (samples tree) ->
    Np.shape1 cov = length (samples tree) ->
    (forall a b, In (a, b) idx -> (a <= b < length (samples tree))%nat) ->
    exists cov',
      for_each idx
        (fun '(n1, n2) cov =>
           s1 <- getitem (samples tree) n1 ;;
           s2 <- getitem (samples tree) n2 ;;
           let mrca := mrca tree s1 s2 in
           r <- root tree ;;
           cov <- Np.setitem2 cov n1 n2 (time tree r - time tree mrca) ;;
           v <- Np.getitem2 cov n1 n2 ;;
           Np.setitem2 cov n2 n1 v) cov = Ok cov' /\
      Np.wf cov' /\ Np.shape0 cov' = length (samples tree) /\
      Np.shape1 cov' = length (samples tree) /\
      (forall a b, In (a, b) idx ->
                   Np.get cov' a b = root_to_mrca tree r a b
                   /\ Np.get cov' b a = root_to_mrca tree r a b) /\
      (forall a b, ~ In (a, b) idx -> ~ In (b, a) idx ->
                   Np.get cov' a b = Np.get cov a b).
Proof.
  intros Hr. induction idx as [|[n1 n2] idx IH]; intros cov Hwf H0 H1 Hrange.
  - exists cov. cbn [for_each].
    split; [reflexivity|]. split; [exact Hwf|]. split; [exact H0|].
    split; [exact H1|]. split; [intros a b []|reflexivity].
  - destruct (Hrange n1 n2 (or_introl eq_refl)) as [Hle Hlt].
    cbn [for_each].
    rewrite (getitem_nth (samples tree) n1 0%Z) by lia.
    rewrite (getitem_nth (samples tree) n2 0%Z) by lia.
    cbn [bind]. unfold root at 1. rewrite Hr. cbn [bind].
    fold (root_to_mrca tree r n1 n2).
    destruct (mirror_step_values n1 n2 (root_to_mrca tree r n1 n2) cov Hwf)
      as [c2 [E2 [W2 [T0 [T1 [G12 [G21 Oth]]]]]]]; try lia.
    rewrite E2. cbn [bind].
    destruct (IH c2 W2) as [cov' [E' [W' [U0 [U1 [Hin Hout]]]]]]; try lia.
    { intros a b Hab. apply Hrange; right; exact Hab. }
    exists cov'. split; [exact E'|]. split; [exact W'|].
    split; [exact U0|]. split; [exact U1|]. split.
    + intros a b [Hhd|Htl]; [|apply Hin; exact Htl].
      injection Hhd as <- <-.
      assert (Hdec : forall p q : nat * nat, {p = q} + {p <> q})
        by (decide equality; apply Nat.eq_dec).
      destruct (in_dec Hdec (n1, n2) idx) as [Hyes|Hno];
        [apply Hin; exact Hyes|].
      assert (Hno' : ~ In (n2, n1) idx).
      { intros Hrev. destruct (Hrange n2 n1 (or_intror Hrev)) as [Hle' _].
        assert (n1 = n2) by lia. subst. contradiction. }
      split.
      * rewrite (Hout n1 n2 Hno Hno'). exact G12.
      * rewrite (Hout n2 n1 Hno' Hno). exact G21.
    + intros a b Hab Hba. rewrite Hout.
      * apply Oth.
        -- intros E; apply Hab; left; symmetry; exact E.
        -- intros E; apply Hba; left. injection E as -> ->. reflexivity.
      * intros H; apply Hab; right; exact H.
      * intros H; apply Hba; right; exact H.
Qed.

Lemma naive_tree_covariance_values (tree : Tree) (r : node) :
  roots tree = [r] ->
  (forall u, In u (nodes tree) -> num_children tree u <> 1%nat) ->
  exists cov,
    naive_tree_covariance tree = Ok cov /\
    Np.shape0 cov = length (samples tree) /\
    Np.shape1 cov = length (samples tree) /\
    forall i j, (i <= j)%nat -> (j < length (samples tree))%nat ->
      Np.get cov i j = root_to_mrca tree r i j
      /\ Np.get cov j i = root_to_mrca tree r i j.
Proof.
  intros Hr Hu. unfold naive_tree_covariance, check_cov_tree_inputs.
  rewrite Hr. cbn [length Nat.eqb negb].
  rewrite (unary_scan_passes tree (nodes tree) Hu). cbn [bind].
  destruct (tree_loop_values tree r
              (combinations_with_replacement2 (length (samples tree))) Hr
              (Np.zeros (length (samples tree)) (length (samples tree))))
    as [cov [E [_ [S0 [S1 [Hin _]]]]]]; try reflexivity.
  - apply wf_build.
  - intros a b Hab. apply In_combinations in Hab. exact Hab.
  - exists cov. split; [exact E|]. split; [exact S0|]. split; [exact S1|].
    intros i j Hij Hj. apply Hin. apply In_combinations. lia.
Qed.

(** X2: on a tree that passes the topology check, [naive_tree_covariance]
    returns an n-by-n matrix, n the number of samples, in which the entries
    [(i, j)] and [(j, i)], for [i <= j], both hold the distance from the root
    to the most recent common ancestor of samples [i] and [j]. *)
Theorem naive_tree_covariance_entries (tree : Tree) (r : node) :
  roots tree = [r] ->
  (forall u, In u (nodes tree) -> num_children tree u <> 1%nat) ->
  exists cov,
    naive_tree_covariance tree = Ok cov /\
    Np.shape0 cov = length (samples tree) /\
    Np.shape1 cov = length (samples tree) /\
    forall i j, (i <= j)%nat -> (j < length (samples tree))%nat ->
      Np.get cov i j = root_to_mrca tree r i j
      /\ Np.get cov j i = root_to_mrca tree r i j.
Proof. exact (naive_tree_covariance_values tree r). Qed.

Lemma naive_tree_covariance_entries_witness :
  exists cov,
    naive_tree_covariance tree_cherry = Ok cov /\
    Np.shape0 cov = 2%nat /\ Np.shape1 cov = 2%nat /\
    forall i j, (i <= j)%nat -> (j < 2)%nat ->
      Np.get cov i j = root_to_mrca tree_cherry 2%Z i j
      /\ Np.get cov j i = root_to_mrca tree_cherry 2%Z i j.
Proof.
  apply (naive_tree_covariance_entries tree_cherry 2%Z); [reflexivity|].
  intros u [<-|[<-|[<-|[]]]]; cbn; lia.
Defined.

(** ** The tree-sequence covariance as a span-weighted mean *)

Lemma check_cov_tree_inputs_cases (tree : Tree) :
  (tree_accepted tree /\ check_cov_tree_inputs tree = Ok tt)
  \/ (~ tree_accepted tree /\
      exists msg,
        check_cov_tree_inputs tree = Raise (ValueError msg) /\
        (msg = "Trees must have one root"%string
         \/ msg = "Unary nodes are not supported"%string)).
Proof.
  unfold check_cov_tree_inputs, tree_accepted.
  destruct (Nat.eqb_spec (length (roots tree)) 1) as [E|NE]; cbn [negb].
  - destruct (classic_unary tree (nodes tree)) as [Hex|Hall].
    + right. split.
      * intros [_ H]. destruct Hex as [u [Hin Hu]]. apply (H u Hin Hu).
      * eexists. split; [apply unary_scan_raises; exact Hex|right; reflexivity].
    + left. split; [split; assumption|apply unary_scan_passes; exact Hall].
  - right. split; [intros [H _]; contradiction|].
    eexists. split; [reflexivity|left; reflexivity].
Qed.

Lemma accepted_root (tree : Tree) :
  tree_accepted tree -> exists r, roots tree = [r].
Proof.
  intros [H _]. destruct (roots tree) as [|r [|r' l]]; try discriminate H.
  exists r; reflexivity.
Qed.

Lemma naive_tree_covariance_rejected (tree : Tree) :
  ~ tree_accepted tree ->
  exists msg,
    naive_tree_covariance tree = Raise (ValueError msg) /\
    (msg = "Trees must have one root"%string
     \/ msg = "Unary nodes are not supported"%string).
Proof.
  intros Hno. unfold naive_tree_covariance.
  destruct (check_cov_tree_inputs_cases tree) as [[Hyes _]|[_ [msg [E Hm]]]];
    [contradiction|].
  exists msg. rewrite E. split; [reflexivity|exact Hm].
Qed.

Lemma ts_loop_rejects (l : list Tree) (cov : Np.ndarray2) :
  (exists tree, In tree l /\ ~ tree_accepted tree) ->
  exists msg,
    for_each l
      (fun tree cov =>
         c <- naive_tree_covariance tree ;;
         Ok (Np.add cov (Np.mul_scalar c (span tree)))) cov
    = Raise (ValueError msg) /\
    (msg = "Trees must have one root"%string
     \/ msg = "Unary nodes are not supported"%string).
Proof.
  revert cov; induction l as [|t l IH]; intros cov [tree [Hin Hno]];
    [destruct Hin|].
  cbn [for_each].
  destruct (check_cov_tree_inputs_cases t) as [[Hyes _]|[Hbad _]].
  - destruct (accepted_root t Hyes) as [r Hr]. destruct Hyes as [_ Hu].
    destruct (naive_tree_covariance_accepts t r Hr Hu) as [c [E _]].
    rewrite E. cbn [bind]. apply IH.
    destruct Hin as [->|Hin].
    + exfalso. apply Hno. split; [rewrite Hr; reflexivity|exact Hu].
    + exists tree. split; assumption.
  - destruct (naive_tree_covariance_rejected t Hbad) as [msg [E Hm]].
    exists msg. rewrite E. split; [reflexivity|exact Hm].
Qed.

(** X3: when any tree of the sequence fails the topology check (its number
    of roots is not one, or it has a unary node), [naive_ts_covariance] raises
    a ValueError with one of the two messages of the check, whatever the
    other trees are.  All trees are over the samples of the sequence, as
    [tree.tree_sequence] is the sequence itself. *)
Theorem naive_ts_covariance_rejects_any (ts : TreeSequence) :
  (forall t, In t (trees ts) -> length (samples t) = num_samples ts) ->
  (exists tree, In tree (trees ts) /\ ~ tree_accepted tree) ->
  exists msg,
    naive_ts_covariance ts = Raise (ValueError msg) /\
    (msg = "Trees must have one root"%string
     \/ msg = "Unary nodes are not supported"%string).
Proof.
  intros _ H. unfold naive_ts_covariance.
  destruct (ts_loop_rejects (trees ts)
              (Np.zeros (length (ts_samples ts)) (length (ts_samples ts))) H)
    as [msg [E Hm]].
  exists msg. rewrite E. split; [reflexivity|exact Hm].
Qed.

Lemma naive_ts_covariance_rejects_any_witness :
  exists msg,
    naive_ts_covariance ts_bad_second_tree = Raise (ValueError msg) /\
    (msg = "Trees must have one root"%string
     \/ msg = "Unary nodes are not supported"%string).
Proof.
  apply (naive_ts_covariance_rejects_any ts_bad_second_tree).
  { intros t [<-|[<-|[]]]; reflexivity. }
  exists tree_two_roots. split; [right; left; reflexivity|].
  intros [H _]. discriminate H.
Defined.

Lemma naive_tree_covariance_distance (tree : Tree) (n : nat) :
  tree_accepted tree -> length (samples tree) = n ->
  exists c,
    naive_tree_covariance tree = Ok c /\
    Np.shape0 c = n /\ Np.shape1 c = n /\
    forall i j, (i < n)%nat -> (j < n)%nat ->
                Np.get c i j = tree_distance tree i j.
Proof.
  intros Hacc Hn. destruct (accepted_root tree Hacc) as [r Hr].
  destruct Hacc as [_ Hu].
  destruct (naive_tree_covariance_values tree r Hr Hu) as [c [E [S0 [S1 H]]]].
  exists c. split; [exact E|]. split; [lia|]. split; [lia|].
  intros i j Hi Hj. unfold tree_distance. rewrite Hr.
  destruct (Nat.le_gt_cases i j) as [Hij|Hji].
  - rewrite Nat.min_l, Nat.max_r by lia. apply H; lia.
  - rewrite Nat.min_r, Nat.max_l by lia. apply H; lia.
Qed.

Lemma ts_loop_values (n : nat) (l : list Tree) :
  (forall t, In t l -> tree_accepted t /\ length (samples t) = n) ->
  forall cov,
    Np.shape0 cov = n -> Np.shape1 cov = n ->
    exists cov',
      for_each l
        (fun tree cov =>
           c <- naive_tree_covariance tree ;;
           Ok (Np.add cov (Np.mul_scalar c (span tree)))) cov = Ok cov' /\
      Np.shape0 cov' = n /\ Np.shape1 cov' = n /\
      forall i j, (i < n)%nat -> (j < n)%nat ->
        Np.get cov' i j
        == Np.get cov i j
           + qsum (map (fun t => tree_distance t i j * span t) l).
Proof.
  induction l as [|t l IH]; intros Hl cov H0 H1.
  - exists cov. cbn [for_each map]. split; [reflexivity|].
    split; [exact H0|]. split; [exact H1|].
    intros i j _ _. rewrite qsum_nil. ring.
  - destruct (Hl t (or_introl eq_refl)) as [Hacc Hn].
    destruct (naive_tree_covariance_distance t n Hacc Hn)
      as [c [E [C0 [C1 Hc]]]].
    cbn [for_each]. rewrite E. cbn [bind].
    destruct (IH (fun u Hu => Hl u (or_intror Hu))
                 (Np.add cov (Np.mul_scalar c (span t))))
      as [cov' [E' [S0 [S1 H']]]].
    + cbn. exact H0.
    + cbn. exact H1.
    + exists cov'. split; [exact E'|]. split; [exact S0|]. split; [exact S1|].
      intros i j Hi Hj. rewrite (H' i j Hi Hj).
      unfold Np.add, Np.mul_scalar. rewrite H0, H1, C0, C1.
      rewrite !get_build by assumption. rewrite (Hc i j Hi Hj).
      cbn [map]. rewrite qsum_cons. ring.
Qed.

Lemma naive_ts_covariance_values (ts : TreeSequence) :
  (forall t, In t (trees ts) ->
             tree_accepted t /\ length (samples t) = num_samples ts) ->
  exists cov,
    naive_ts_covariance ts = Ok cov /\
    Np.shape0 cov = num_samples ts /\ Np.shape1 cov = num_samples ts /\
    forall i j, (i < num_samples ts)%nat -> (j < num_samples ts)%nat ->
      Np.get cov i j
      == qsum (map (fun t => tree_distance t i j * span t) (trees ts))
         / sequence_length ts.
Proof.
  intros Hl. unfold naive_ts_covariance. fold (num_samples ts).
  destruct (ts_loop_values (num_samples ts) (trees ts) Hl
              (Np.zeros (num_samples ts) (num_samples ts)))
    as [cov [E [S0 [S1 H]]]]; try reflexivity.
  rewrite E. cbn [bind]. eexists. split; [reflexivity|].
  split; [cbn; exact S0|]. split; [cbn; exact S1|].
  intros i j Hi Hj. unfold Np.div_scalar. rewrite S0, S1.
  rewrite get_build by assumption. rewrite (H i j Hi Hj), get_zeros_eq.
  rewrite Qplus_0_l. reflexivity.
Qed.

(** X4: when every tree passes the topology check and is over the samples of
    the sequence, [naive_ts_covariance] returns the n-by-n matrix whose entry
    [(i, j)] is the sum over the trees of the tree covariance entry times the
    span of the tree, divided by the sequence length. *)
Theorem naive_ts_covariance_weighted_mean (ts : TreeSequence) :
  (forall t, In t (trees ts) ->
             tree_accepted t /\ length (samples t) = num_samples ts) ->
  exists cov,
    naive_ts_covariance ts = Ok cov /\
    Np.shape0 cov = num_samples ts /\ Np.shape1 cov = num_samples ts /\
    forall i j, (i < num_samples ts)%nat -> (j < num_samples ts)%nat ->
      Np.get cov i j
      == qsum (map (fun t => tree_distance t i j * span t) (trees ts))
         / sequence_length ts.
Proof. exact (naive_ts_covariance_values ts). Qed.

Lemma naive_ts_covariance_weighted_mean_witness :
  exists cov,
    naive_ts_covariance ts_two_cherries = Ok cov /\
    Np.shape0 cov = 2%nat /\ Np.shape1 cov = 2%nat /\
    forall i j, (i < 2)%nat -> (j < 2)%nat ->
      Np.get cov i j
      == qsum (map (fun t => tree_distance t i j * span t)
                   [tree_cherry; tree_cherry_tall])
         / 3.
Proof.
  apply (naive_ts_covariance_weighted_mean ts_two_cherries).
  intros t [<-|[<-|[]]]; (split; [split; [reflexivity|]|reflexivity]);
    intros u [<-|[<-|[<-|[]]]]; cbn; lia.
Defined.

Example naive_ts_covariance_two_cherries :
  exists cov,
    naive_ts_covariance ts_two_cherries = Ok cov /\
    Np.eqb cov (Np.mk 2 2 [[7 # 3; 0]; [0; 7 # 3]]) = true.
Proof. eexists. split; vm_compute; reflexivity. Qed.

(** ** The genotype covariance is a covariance *)

Lemma qsum_swap {A B : Type} (f : A -> B -> Q) (la : list A) (lb : list B) :
  qsum (map (fun a => qsum (map (fun b => f a b) lb)) la)
  == qsum (map (fun b => qsum (map (fun a => f a b) la)) lb).
Proof.
  induction la as [|a la IH]; cbn [map].
  - rewrite qsum_nil. symmetry. apply qsum_map_zero. intros; apply qsum_nil.
  - rewrite qsum_cons, IH.
    rewrite (qsum_map_ext (fun b => qsum (f a b :: map (fun a0 => f a0 b) la))
               (fun b => f a b + qsum (map (fun a0 => f a0 b) la)))
      by (intros; apply qsum_cons).
    rewrite (qsum_map_plus (fun b => f a b)). reflexivity.
Qed.

Lemma qsum_nonneg {A : Type} (f : A -> Q) (l : list A) :
  (forall a, In a l -> 0 <= f a) -> 0 <= qsum (map f l).
Proof.
  induction l as [|a l IH]; intros H; cbn [map].
  - rewrite qsum_nil. apply Qle_refl.
  - rewrite qsum_cons.
    apply (Qle_trans _ (0 + 0)); [apply Qle_refl|].
    apply Qplus_le_compat; [apply H; left; reflexivity|].
    apply IH. intros; apply H; right; assumption.
Qed.

Lemma qsum_cen (n : nat) (row : list Z) :
  length row = n -> (0 < n)%nat ->
  qsum (map (fun b => cen n row b) (seq 0 n)) == 0.
Proof.
  intros Hlen Hn. unfold cen.
  rewrite (qsum_map_ext _
             (fun b => inject_Z (nth b row 0%Z)
                       + (-1) * (qsum (map inject_Z row)
                                 / inject_Z (Z.of_nat n))))
    by (intros; ring).
  rewrite (qsum_map_plus (fun b => inject_Z (nth b row 0%Z))).
  rewrite (qsum_map_scale (-1) (fun _ => _)), qsum_map_const, length_seq.
  rewrite <- Hlen at 1. rewrite (map_nth_seq_gen inject_Z row 0%Z).
  assert (NZ := inject_nat_nonzero n Hn). field. exact NZ.
Qed.

(** X5: in exact arithmetic (the rational model of the floats; rounding
    leaves residues of the order of 1e-17 in the float64 program), each row
    of the genotype covariance sums to zero: the genotypes are centred by the
    site mean, so the deviations of one site cancel over the samples. *)
Theorem naive_genotype_covariance_rows_sum_to_zero (ts : TreeSequence) :
  wf_ts ts -> (0 < num_samples ts)%nat ->
  exists C,
    naive_genotype_covariance ts = Ok C /\
    forall a, (a < num_samples ts)%nat ->
      qsum (map (fun b => Np.get C a b) (seq 0 (num_samples ts))) == 0.
Proof.
  intros Hwf Hn. eexists. split; [apply naive_genotype_covariance_value|].
  intros a Ha.
  rewrite (qsum_map_ext _
             (fun b => qsum (map (fun row => cen (num_samples ts) row a
                                             * cen (num_samples ts) row b)
                                 (sites ts))))
    by (intros b Hb; apply in_seq in Hb; apply naive_entry; lia).
  rewrite (qsum_swap (fun b row => cen (num_samples ts) row a
                                   * cen (num_samples ts) row b)).
  apply qsum_map_zero. intros row Hrow.
  rewrite (qsum_map_scale (cen (num_samples ts) row a)
             (fun b => cen (num_samples ts) row b)).
  unfold wf_ts in Hwf. rewrite Forall_forall in Hwf.
  rewrite (qsum_cen (num_samples ts) row (Hwf row Hrow) Hn). ring.
Qed.

Lemma naive_genotype_covariance_rows_sum_to_zero_witness :
  exists C,
    naive_genotype_covariance ts_scenario = Ok C /\
    forall a, (a < 6)%nat ->
      qsum (map (fun b => Np.get C a b) (seq 0 6)) == 0.
Proof.
  apply (naive_genotype_covariance_rows_sum_to_zero ts_scenario).
  - unfold wf_ts; cbn. repeat (apply Forall_cons || apply Forall_nil).
    reflexivity.
  - cbn; lia.
Defined.

Lemma Qsquare_nonneg (q : Q) : 0 <= q * q.
Proof.
  unfold Qle, Qmult; cbn. rewrite Z.mul_1_r. apply Z.square_nonneg.
Qed.

Lemma qsum_product {A B : Type} (u : A -> Q) (v : B -> Q) (la : list A)
  (lb : list B) :
  qsum (map u la) * qsum (map v lb)
  == qsum (map (fun a => qsum (map (fun b => u a * v b) lb)) la).
Proof.
  induction la as [|a la IH]; cbn [map].
  - rewrite !qsum_nil. ring.
  - rewrite !qsum_cons, <- IH, (qsum_map_scale (u a) v). ring.
Qed.

(** In exact arithmetic the genotype covariance is positive semidefinite:
    for every weight vector [w] the quadratic form [w^T C w] is a sum of
    squares over the sites.  Rounding can make the form of the float64 matrix
    negative by the order of 1e-34; the diagonal, below, is not affected. *)
Lemma naive_genotype_covariance_positive_semidefinite (ts : TreeSequence)
  (w : nat -> Q) :
  exists C,
    naive_genotype_covariance ts = Ok C /\ 0 <= quadratic_form C w.
Proof.
  eexists. split; [apply naive_genotype_covariance_value|].
  unfold quadratic_form. cbn [Np.shape0 Np.shape1 Np.build].
  set (n := num_samples ts).
  set (proj := fun row : list Z =>
                 qsum (map (fun a => w a * cen n row a) (seq 0 n))).
  assert (E : qsum (map (fun a =>
                qsum (map (fun b =>
                   w a * Np.get (Np.build n n
                     (fun i j =>
                        qsum (map (fun k => Np.get (centred ts) i k
                                   * Np.get (Np.transpose (centred ts)) k j)
                                  (seq 0 (length (sites ts)))))) a b * w b)
                   (seq 0 n))) (seq 0 n))
              == qsum (map (fun row => proj row * proj row) (sites ts))).
  { rewrite (qsum_map_ext _
               (fun a => qsum (map (fun row =>
                   qsum (map (fun b => (w a * cen n row a) * (w b * cen n row b))
                             (seq 0 n))) (sites ts)))).
    - rewrite (qsum_swap (fun a row =>
                 qsum (map (fun b => (w a * cen n row a) * (w b * cen n row b))
                           (seq 0 n)))).
      apply qsum_map_ext. intros row _. unfold proj.
      rewrite (qsum_product (fun a => w a * cen n row a)
                 (fun b => w b * cen n row b)). reflexivity.
    - intros a Ha. apply in_seq in Ha.
      rewrite (qsum_swap (fun row b =>
                 (w a * cen n row a) * (w b * cen n row b))).
      apply qsum_map_ext. intros b Hb. apply in_seq in Hb.
      unfold n. rewrite naive_entry by lia. fold n.
      rewrite (qsum_map_ext
                 (fun row => (w a * cen n row a) * (w b * cen n row b))
                 (fun row => (w a * w b) * (cen n row a * cen n row b)))
        by (intros; ring).
      rewrite (qsum_map_scale (w a * w b)
                 (fun row => cen n row a * cen n row b)).
      ring. }
  rewrite E. apply qsum_nonneg. intros row _.
  apply Qsquare_nonneg.
Qed.

(** ** Exchanging the allele labels *)

Lemma qsum_flipped (row : list Z) :
  qsum (map inject_Z (map (fun g => (1 - g)%Z) row))
  == inject_Z (Z.of_nat (length row)) - qsum (map inject_Z row).
Proof.
  rewrite map_map.
  rewrite (qsum_map_ext (fun g => inject_Z (1 - g))
             (fun g => 1 + (-1) * inject_Z g)).
  - rewrite (qsum_map_plus (fun _ => 1) (fun g => (-1) * inject_Z g)).
    rewrite qsum_map_const, qsum_map_scale. ring.
  - intros g _. unfold Z.sub. rewrite inject_Z_plus, inject_Z_opp. ring.
Qed.

Lemma cen_flipped (n : nat) (row : list Z) (i : nat) :
  length row = n -> (0 < n)%nat -> (i < n)%nat ->
  cen n (map (fun g => (1 - g)%Z) row) i == - cen n row i.
Proof.
  intros Hlen Hn Hi. unfold cen.
  rewrite (nth_map_lt _ row 0%Z 0%Z i) by lia.
  rewrite qsum_flipped, Hlen.
  unfold Z.sub. rewrite inject_Z_plus, inject_Z_opp.
  assert (NZ := inject_nat_nonzero n Hn). field. exact NZ.
Qed.

(** X7: in exact arithmetic (the rational model of the floats; the float64
    program agrees up to rounding in the last digits), the genotype
    covariance does not depend on which of the two alleles is called 0:
    replacing every genotype [g] by [1 - g] leaves the matrix unchanged. *)
Theorem naive_genotype_covariance_flip_invariant (ts : TreeSequence) :
  wf_ts ts -> (0 < num_samples ts)%nat ->
  exists C C',
    naive_genotype_covariance ts = Ok C /\
    naive_genotype_covariance (flip_alleles ts) = Ok C' /\
    Np.equiv C C'.
Proof.
  intros Hwf Hn. eexists; eexists.
  split; [apply naive_genotype_covariance_value|].
  split; [apply naive_genotype_covariance_value|].
  apply (equiv_of_entries (num_samples ts) _ _
           (fun i j => qsum (map (fun row => cen (num_samples ts) row i
                                             * cen (num_samples ts) row j)
                                 (sites ts)))); try reflexivity.
  - intros i j Hi Hj. apply naive_entry; assumption.
  - intros i j Hi Hj.
    change (num_samples (flip_alleles ts)) with (num_samples ts).
    rewrite (naive_entry (flip_alleles ts) i j Hi Hj).
    change (num_samples (flip_alleles ts)) with (num_samples ts).
    cbn [flip_alleles sites]. rewrite map_map.
    apply qsum_map_ext. intros row Hrow.
    unfold wf_ts in Hwf. rewrite Forall_forall in Hwf.
    rewrite !cen_flipped by (auto; lia). ring.
Qed.

Lemma naive_genotype_covariance_flip_invariant_witness :
  exists C C',
    naive_genotype_covariance ts_scenario01 = Ok C /\
    naive_genotype_covariance (flip_alleles ts_scenario01) = Ok C' /\
    Np.equiv C C'.
Proof.
  apply (naive_genotype_covariance_flip_invariant ts_scenario01).
  - unfold wf_ts; cbn. repeat (apply Forall_cons || apply Forall_nil).
    reflexivity.
  - cbn; lia.
Defined.

(** ** More on the summary functions *)

Lemma py_nth_map (g : Q -> Q) (x : list Q) (i : Z) :
  valid_index (length x) i -> py_nth (map g x) i = g (py_nth x i).
Proof.
  unfold valid_index, py_nth; intros H. rewrite length_map.
  apply nth_map_lt.
  destruct (i <? 0)%Z eqn:Neg;
    [apply Z.ltb_lt in Neg | apply Z.ltb_ge in Neg]; lia.
Qed.

Lemma qsum_complement (c : Q) (x : list Q) :
  qsum (map (fun a => c - a) x)
  == inject_Z (Z.of_nat (length x)) * c - qsum x.
Proof.
  rewrite (qsum_map_ext (fun a => c - a) (fun a => c + (-1) * a))
    by (intros; ring).
  rewrite (qsum_map_plus (fun _ => c) (fun a => (-1) * a)).
  rewrite qsum_map_const, (qsum_map_scale (-1) (fun a => a)), map_id. ring.
Qed.

(** X8: in exact arithmetic (the rational model of the floats; the float64
    program agrees up to rounding in the last digits), the summary function
    of [c_genotype_relatedness] gives the same values on a count vector [x]
    and on its complement [c - x] (every entry subtracted from one constant
    [c], the common size of the sample sets): counting the carriers of the
    ancestral instead of the derived allele changes nothing. *)
Theorem c_genotype_relatedness_f_complement (n : nat) (indexes : list (Z * Z))
  (x : list Q) (c : Q) :
  length x = n -> (0 < n)%nat -> valid_pairs n indexes ->
  exists u v,
    c_genotype_relatedness_f n indexes x = Ok u /\
    c_genotype_relatedness_f n indexes (map (fun a => c - a) x) = Ok v /\
    length u = length indexes /\ length v = length indexes /\
    forall k, (k < length indexes)%nat -> nth k u 0 == nth k v 0.
Proof.
  intros Hx Hn Hv. eexists; eexists.
  split; [apply c_genotype_relatedness_f_value; assumption|].
  split; [apply c_genotype_relatedness_f_value;
          [rewrite length_map|..]; assumption|].
  split; [apply length_map|]. split; [apply length_map|].
  intros k Hk.
  rewrite !(nth_map_lt _ indexes 0 (0%Z, 0%Z) k Hk). cbv beta.
  set (p := nth k indexes (0%Z, 0%Z)).
  destruct (Hv p (nth_In indexes (0%Z, 0%Z) Hk)) as [Hi Hj].
  rewrite <- Hx in Hi, Hj.
  rewrite !py_nth_map by assumption.
  rewrite qsum_complement, Hx.
  assert (NZ := inject_nat_nonzero n Hn). field. exact NZ.
Qed.

Lemma c_genotype_relatedness_f_complement_witness :
  exists u v,
    c_genotype_relatedness_f 3 [(0, 1); (2, -1)]%Z [1; 0; 0] = Ok u /\
    c_genotype_relatedness_f 3 [(0, 1); (2, -1)]%Z
      (map (fun a => 1 - a) [1; 0; 0]) = Ok v /\
    length u = 2%nat /\ length v = 2%nat /\
    forall k, (k < 2)%nat -> nth k u 0 == nth k v 0.
Proof.
  apply (c_genotype_relatedness_f_complement 3 [(0, 1); (2, -1)]%Z [1; 0; 0] 1).
  - reflexivity.
  - lia.
  - intros p [<-|[<-|[]]]; unfold valid_index; simpl; lia.
Defined.

(** X9: entry [(i, j)] of the summary function of [genotype_relatedness] is
    twice the value the summary function of [c_genotype_relatedness] gives for
    the index pair [(i, j)]: the division by two is inside the one and applied
    to the result of the other. *)
Theorem genotype_relatedness_f_twice_c (n : nat) (x : list Q) (i j : nat) :
  length x = n -> (i < n)%nat -> (j < n)%nat ->
  exists u v,
    genotype_relatedness_f n x = Ok u /\
    c_genotype_relatedness_f n [(Z.of_nat i, Z.of_nat j)] x = Ok [v] /\
    nth (i * n + j) u 0 == 2 * v.
Proof.
  intros Hx Hi Hj. eexists; eexists.
  split; [apply genotype_relatedness_f_value; exact Hx|].
  split.
  - rewrite (c_genotype_relatedness_f_value n _ x Hx); [reflexivity|lia|].
    intros p [<-|[]]. unfold valid_index; cbn. lia.
  - rewrite nth_range2 by assumption. cbn [fst snd].
    rewrite !py_nth_nat. field. apply inject_nat_nonzero; lia.
Qed.

Lemma genotype_relatedness_f_twice_c_witness :
  exists u v,
    genotype_relatedness_f 3 [1; 0; 0] = Ok u /\
    c_genotype_relatedness_f 3 [(Z.of_nat 0, Z.of_nat 2)] [1; 0; 0] = Ok [v] /\
    nth (0 * 3 + 2) u 0 == 2 * v.
Proof.
  apply (genotype_relatedness_f_twice_c 3 [1; 0; 0] 0 2); [reflexivity|lia|lia].
Defined.

(** X10: the summary function of [genotype_relatedness] returns [n * n]
    values that form a symmetric n-by-n table (flattened row by row): the
    entry of the pair [(i, j)] is the product of the same two centred counts
    as the entry of [(j, i)]. *)
Theorem genotype_relatedness_f_symmetric (n : nat) (x : list Q) :
  length x = n ->
  exists u,
    genotype_relatedness_f n x = Ok u /\ length u = (n * n)%nat /\
    forall i j, (i < n)%nat -> (j < n)%nat ->
      nth (i * n + j) u 0
      = (nth i x 0 - qsum x / inject_Z (Z.of_nat n))
        * (nth j x 0 - qsum x / inject_Z (Z.of_nat n))
      /\ nth (i * n + j) u 0 == nth (j * n + i) u 0.
Proof.
  intros Hx. eexists.
  split; [apply genotype_relatedness_f_value; exact Hx|].
  split; [rewrite length_map; apply length_range2|].
  intros i j Hi Hj. rewrite !nth_range2 by assumption. cbn [fst snd].
  split; [reflexivity|ring].
Qed.

Lemma genotype_relatedness_f_symmetric_witness :
  exists u,
    genotype_relatedness_f 3 [1; 0; 0] = Ok u /\ length u = (3 * 3)%nat /\
    forall i j, (i < 3)%nat -> (j < 3)%nat ->
      nth (i * 3 + j) u 0
      = (nth i [1; 0; 0] 0 - qsum [1; 0; 0] / inject_Z (Z.of_nat 3))
        * (nth j [1; 0; 0] 0 - qsum [1; 0; 0] / inject_Z (Z.of_nat 3))
      /\ nth (i * 3 + j) u 0 == nth (j * 3 + i) u 0.
Proof.
  apply (genotype_relatedness_f_symmetric 3 [1; 0; 0]). reflexivity.
Defined.

(** ** Reads outside the count vector *)

Lemma for_each_app {A S : Type} (l1 l2 : list A) (body : A -> S -> result S)
  (s : S) :
  for_each (l1 ++ l2) body s = s' <- for_each l1 body s ;; for_each l2 body s'.
Proof.
  revert s; induction l1 as [|a l1 IH]; intros s; simpl; [reflexivity|].
  destruct (body a s); simpl; auto.
Qed.

Lemma getitem_out {A : Type} (l : list A) (i : nat) :
  (length l <= i)%nat -> getitem l i = Raise IndexError.
Proof.
  intros H; unfold getitem.
  apply nth_error_None in H; rewrite H; reflexivity.
Qed.

Lemma getitemZ_invalid {A : Type} (l : list A) (i : Z) :
  ~ valid_index (length l) i -> getitemZ l i = Raise IndexError.
Proof.
  unfold valid_index, getitemZ. intros H.
  destruct (0 <=? i)%Z eqn:E0; destruct (i <? Z.of_nat (length l))%Z eqn:E1;
    destruct (- Z.of_nat (length l) <=? i)%Z eqn:E2;
    destruct (i <? 0)%Z eqn:E3; cbn [andb]; try reflexivity;
    exfalso; apply H;
    repeat match goal with
           | E : (_ <=? _)%Z = true |- _ => apply Z.leb_le in E
           | E : (_ <=? _)%Z = false |- _ => apply Z.leb_gt in E
           | E : (_ <? _)%Z = true |- _ => apply Z.ltb_lt in E
           | E : (_ <? _)%Z = false |- _ => apply Z.ltb_ge in E
           end; lia.
Qed.

Lemma valid_index_dec (n : nat) (i : Z) :
  {valid_index n i} + {~ valid_index n i}.
Proof.
  unfold valid_index.
  destruct (Z_le_dec (- Z.of_nat n) i); destruct (Z_lt_dec i (Z.of_nat n));
    [left; lia|right; lia|right; lia|right; lia].
Qed.

Lemma mapM_raises {A B : Type} (f : A -> result B) (e : exn) (l : list A) :
  (forall a, In a l -> (exists b, f a = Ok b) \/ f a = Raise e) ->
  (exists a, In a l /\ f a = Raise e) ->
  mapM f l = Raise e.
Proof.
  induction l as [|a l IH]; intros Hall [a0 [Hin Hr]]; [destruct Hin|].
  cbn [mapM].
  destruct (Hall a (or_introl eq_refl)) as [[b Eb]|Er].
  - rewrite Eb. cbn [bind]. rewrite IH; [reflexivity| |].
    + intros a' Ha'. apply Hall; right; exact Ha'.
    + destruct Hin as [->|Hin]; [rewrite Eb in Hr; discriminate Hr|].
      exists a0. split; assumption.
  - rewrite Er. reflexivity.
Qed.

Lemma pair_body_cases (x : list Q) (meanx : Q) (p : Z * Z) :
  (valid_index (length x) (fst p) /\ valid_index (length x) (snd p) /\
   exists b,
     (let '(i, j) := p in
      xi <- getitemZ x i ;; xj <- getitemZ x j ;;
      Ok ((xi - meanx) * (xj - meanx) / 2)) = Ok b)
  \/ ((~ valid_index (length x) (fst p) \/ ~ valid_index (length x) (snd p)) /\
      (let '(i, j) := p in
       xi <- getitemZ x i ;; xj <- getitemZ x j ;;
       Ok ((xi - meanx) * (xj - meanx) / 2)) = Raise IndexError).
Proof.
  destruct p as [i j]. cbn [fst snd].
  destruct (valid_index_dec (length x) i) as [Hi|Hi].
  - rewrite (getitemZ_valid x i Hi). cbn [bind].
    destruct (valid_index_dec (length x) j) as [Hj|Hj].
    + rewrite (getitemZ_valid x j Hj). cbn [bind].
      left. split; [exact Hi|]. split; [exact Hj|]. eexists; reflexivity.
    + rewrite (getitemZ_invalid x j Hj). right. split; [right; exact Hj|reflexivity].
  - rewrite (getitemZ_invalid x i Hi). right. split; [left; exact Hi|reflexivity].
Qed.

(** X11: the summary function of [c_genotype_relatedness] raises IndexError
    when it is told of more sample sets than the count vector has entries,
    and, for a count vector of the announced positive length, when some index
    pair has an index outside [-n, n). *)
Theorem c_genotype_relatedness_f_index_error (state_dim : nat)
  (indexes : list (Z * Z)) (x : list Q) :
  (length x < state_dim)%nat
  \/ (length x = state_dim /\ (0 < state_dim)%nat /\
      exists p, In p indexes /\
                (~ valid_index state_dim (fst p)
                 \/ ~ valid_index state_dim (snd p))) ->
  c_genotype_relatedness_f state_dim indexes x = Raise IndexError.
Proof.
  intros [Hshort|[Hx [Hn [p [Hin Hbad]]]]]; unfold c_genotype_relatedness_f.
  - unfold range.
    replace state_dim with (length x + (state_dim - length x))%nat by lia.
    rewrite seq_app, for_each_app.
    fold (range (length x)). rewrite sum_loop. cbn [bind].
    destruct (state_dim - length x)%nat as [|d] eqn:E; [lia|].
    cbn [seq for_each]. rewrite getitem_out by (cbn; lia). reflexivity.
  - rewrite <- Hx at 1. rewrite sum_loop. cbn [bind].
    replace (state_dim =? 0)%nat with false
      by (symmetry; apply Nat.eqb_neq; lia).
    cbn [bind]. subst state_dim. apply mapM_raises.
    + intros q _.
      destruct (pair_body_cases x (qsum x / inject_Z (Z.of_nat (length x))) q)
        as [[_ [_ [b Eb]]]|[_ Er]]; [left; exists b; exact Eb|right; exact Er].
    + exists p. split; [exact Hin|].
      destruct (pair_body_cases x (qsum x / inject_Z (Z.of_nat (length x))) p)
        as [[Hi [Hj _]]|[_ Er]]; [|exact Er].
      destruct Hbad; contradiction.
Qed.

Lemma c_genotype_relatedness_f_index_error_witness :
  c_genotype_relatedness_f 3 [(0, 0)]%Z [1; 0] = Raise IndexError
  /\ c_genotype_relatedness_f 2 [(0, 1); (1, 2)]%Z [1; 0] = Raise IndexError.
Proof.
  split.
  - apply (c_genotype_relatedness_f_index_error 3 [(0, 0)]%Z [1; 0]).
    left; cbn; lia.
  - apply (c_genotype_relatedness_f_index_error 2 [(0, 1); (1, 2)]%Z [1; 0]).
    right. split; [reflexivity|]. split; [lia|].
    exists (1, 2)%Z. split; [right; left; reflexivity|].
    right. unfold valid_index; cbn; lia.
Defined.

(** * Properties of the tutorial script *)

(** ** The colours of the nodes *)

Lemma getitemZ_item {A : Type} (l : list A) (i : Z) (d : A) :
  valid_index (length l) i -> getitemZ l i = Ok (py_item l i d).
Proof.
  unfold valid_index, getitemZ, py_item; intros H.
  destruct (i <? 0)%Z eqn:Neg.
  - apply Z.ltb_lt in Neg.
    replace (0 <=? i)%Z with false by (symmetry; apply Z.leb_gt; lia).
    replace (- Z.of_nat (length l) <=? i)%Z with true
      by (symmetry; apply Z.leb_le; lia).
    simpl. apply getitem_nth. lia.
  - apply Z.ltb_ge in Neg.
    replace (0 <=? i)%Z with true by (symmetry; apply Z.leb_le; lia).
    replace (i <? Z.of_nat (length l))%Z with true
      by (symmetry; apply Z.ltb_lt; lia).
    simpl. apply getitem_nth. lia.
Qed.


Lemma find_key_from (alleles : list string) (genotypes : list Z)
  (a j : nat) (g : Z) :
  nth_error genotypes j = Some g ->
  find (fun kv : nat * string => (fst kv =? a + j)%nat)
       (map (fun p => (fst p, py_item alleles (snd p) ""%string))
            (combine (seq a (length genotypes)) genotypes))
  = Some ((a + j)%nat, py_item alleles g ""%string).
Proof.
  revert a j; induction genotypes as [|g0 gs IH]; intros a j Hj.
  - destruct j; discriminate Hj.
  - cbn [length seq combine map find fst].
    destruct j as [|j].
    + injection Hj as ->. rewrite Nat.add_0_r, Nat.eqb_refl. reflexivity.
    + replace (a =? a + S j)%nat with false
        by (symmetry; apply Nat.eqb_neq; lia).
      cbn in Hj. rewrite <- Nat.add_succ_comm. apply IH. exact Hj.
Qed.

Lemma map_fst_combine {A B : Type} (l : list A) (l' : list B) :
  length l = length l' -> map fst (combine l l') = l.
Proof.
  revert l'; induction l as [|a l IH]; intros [|b l'] H; cbn in *;
    try reflexivity; try discriminate H.
  f_equal. apply IH. lia.
Qed.

(** X12: when every genotype is a valid Python index into [alleles], the
    dictionary [node_colours] of [parsimony] has exactly the keys
    [0 .. len(genotypes) - 1], in order, and maps node [j] to
    [alleles[genotypes[j]]]; so a node with missing data, genotype -1, gets
    the last allele of the list. *)
Theorem node_colours_lookup (alleles : list string) (genotypes : list Z) :
  Forall (valid_index (length alleles)) genotypes ->
  exists d,
    node_colours alleles genotypes = Ok d /\
    map fst d = seq 0 (length genotypes) /\
    forall j g, nth_error genotypes j = Some g ->
      dict_get d j = Some (py_item alleles g ""%string)
      /\ (g = (-1)%Z -> dict_get d j = Some (last alleles ""%string)).
Proof.
  intros Hv.
  assert (E : node_colours alleles genotypes
              = Ok (map (fun p => (fst p, py_item alleles (snd p) ""%string))
                        (enumerate genotypes))).
  { unfold node_colours. apply mapM_ok. intros [j g] Hin.
    apply in_combine_r in Hin. rewrite Forall_forall in Hv.
    rewrite (getitemZ_item alleles g ""%string (Hv g Hin)). reflexivity. }
  eexists. split; [exact E|]. split.
  - rewrite map_map. cbn [fst]. unfold enumerate.
    rewrite <- (map_map fst (fun x => x)), map_id.
    apply map_fst_combine. rewrite length_seq; reflexivity.
  - intros j g Hj.
    assert (Eg : dict_get
                   (map (fun p => (fst p, py_item alleles (snd p) ""%string))
                        (enumerate genotypes)) j
                 = Some (py_item alleles g ""%string)).
    { unfold dict_get, enumerate.
      pose proof (find_key_from alleles genotypes 0 j g Hj) as F.
      cbn [Nat.add] in F. rewrite F. reflexivity. }
    split; [exact Eg|].
    intros ->. rewrite Eg. f_equal. unfold py_item. cbn [Z.ltb Z.compare].
    rewrite Forall_forall in Hv.
    assert (Hin : In (-1)%Z genotypes) by (apply (nth_error_In _ _ Hj)).
    specialize (Hv _ Hin). unfold valid_index in Hv.
    destruct alleles as [|a0 al] using rev_ind; [cbn in Hv; lia|].
    rewrite last_last, length_app, Nat.add_1_r.
    replace (Z.to_nat (Z.of_nat (S (length al)) + -1)) with (length al) by lia.
    rewrite app_nth2, Nat.sub_diag by lia. reflexivity.
Qed.

Lemma node_colours_lookup_witness :
  exists d,
    node_colours ["red"; "blue"; "green"; "white"]%string
      [-1; 0; 0; 0; 1; 2]%Z = Ok d /\
    map fst d = seq 0 6 /\
    forall j g, nth_error [-1; 0; 0; 0; 1; 2]%Z j = Some g ->
      dict_get d j
      = Some (py_item ["red"; "blue"; "green"; "white"]%string g ""%string)
      /\ (g = (-1)%Z ->
          dict_get d j
          = Some (last ["red"; "blue"; "green"; "white"]%string ""%string)).
Proof.
  apply (node_colours_lookup ["red"; "blue"; "green"; "white"]%string
           [-1; 0; 0; 0; 1; 2]%Z).
  repeat (apply Forall_cons || apply Forall_nil); unfold valid_index; cbn; lia.
Defined.

(** X13: when some genotype is not a valid Python index into [alleles], the
    dictionary comprehension of [parsimony] raises IndexError. *)
Theorem node_colours_index_error (alleles : list string) (genotypes : list Z) :
  (exists g, In g genotypes /\ ~ valid_index (length alleles) g) ->
  node_colours alleles genotypes = Raise IndexError.
Proof.
  intros [g [Hin Hbad]]. unfold node_colours. apply mapM_raises.
  - intros [j g'] _.
    destruct (valid_index_dec (length alleles) g') as [Hv|Hv].
    + left. rewrite (getitemZ_item alleles g' ""%string Hv).
      eexists; reflexivity.
    + right. rewrite (getitemZ_invalid alleles g' Hv). reflexivity.
  - apply In_nth_error in Hin as [j Hj].
    exists (j, g). split.
    + unfold enumerate.
      assert (Hlt : (j < length genotypes)%nat)
        by (apply nth_error_Some; rewrite Hj; discriminate).
      assert (E : nth j (combine (seq 0 (length genotypes)) genotypes)
                      (0%nat, 0%Z) = (j, g)).
      { rewrite combine_nth by (rewrite length_seq; reflexivity).
        rewrite seq_nth by exact Hlt.
        rewrite (nth_error_nth _ _ 0%Z Hj). reflexivity. }
      rewrite <- E. apply nth_In.
      rewrite length_combine, length_seq, Nat.min_id. exact Hlt.
    + rewrite (getitemZ_invalid alleles g Hbad). reflexivity.
Qed.

Lemma node_colours_index_error_witness :
  node_colours ["red"; "blue"]%string [0; 1; 2]%Z = Raise IndexError.
Proof.
  apply (node_colours_index_error ["red"; "blue"]%string [0; 1; 2]%Z).
  exists 2%Z. split; [right; right; left; reflexivity|].
  unfold valid_index; cbn; lia.
Defined.

(** ** Re-inferring the sites and mutations *)

Section Reinfer.

Variable map_mutations : list Z -> list string -> string * list Mutation.

Lemma append_rows (var : Variant) (offset : Z) (ms : list Mutation)
  (acc : list MutationRow) :
  fold_left
    (fun rows mutation =>
       let parent := mut_parent mutation in
       let parent := if negb (parent =? NULL)%Z
                     then (parent + offset)%Z else parent in
       rows ++ [{| row_site := var_index var;
                   row_node := mut_node mutation;
                   row_parent := parent;
                   row_derived_state := mut_derived_state mutation |}])
    ms acc
  = acc ++ map (shifted_row var offset) ms.
Proof.
  revert acc; induction ms as [|m ms IH]; intros acc; cbn [fold_left map].
  - rewrite app_nil_r; reflexivity.
  - rewrite IH, <- app_assoc. reflexivity.
Qed.

Lemma reinfer_variant_eq (tables : Tables) (var : Variant) :
  reinfer_variant map_mutations tables var
  = {| tab_sites := tab_sites tables ++ [site_row_of map_mutations var];
       tab_mutations :=
         tab_mutations tables
         ++ map (shifted_row var (Z.of_nat (length (tab_mutations tables))))
                (snd (map_mutations (var_genotypes var) (var_alleles var))) |}.
Proof.
  unfold reinfer_variant, site_row_of.
  destruct (map_mutations (var_genotypes var) (var_alleles var)) as [a ms].
  cbn [fst snd]. rewrite append_rows. reflexivity.
Qed.

Lemma reinfer_from_columns (variants : list Variant) (tables : Tables) :
  tab_sites (fold_left (reinfer_variant map_mutations) variants tables)
  = tab_sites tables ++ map (site_row_of map_mutations) variants
  /\ map row_core
         (tab_mutations
            (fold_left (reinfer_variant map_mutations) variants tables))
     = map row_core (tab_mutations tables)
       ++ flat_map (cores_of map_mutations) variants.
Proof.
  revert tables; induction variants as [|var vs IH]; intros tables;
    cbn [fold_left map flat_map].
  - rewrite !app_nil_r. split; reflexivity.
  - destruct (IH (reinfer_variant map_mutations tables var)) as [Hs Hm].
    rewrite Hs, Hm, reinfer_variant_eq. cbn [tab_sites tab_mutations].
    rewrite <- !app_assoc, map_app, map_map, <- app_assoc. split; reflexivity.
Qed.

Lemma reinfer_from_parents (variants : list Variant) (tables : Tables) :
  (forall var, In var variants ->
     parents_point_back
       (snd (map_mutations (var_genotypes var) (var_alleles var)))) ->
  parents_in_site (tab_mutations tables) ->
  parents_in_site
    (tab_mutations (fold_left (reinfer_variant map_mutations) variants tables)).
Proof.
  revert tables; induction variants as [|var vs IH]; intros tables Hback Hin;
    cbn [fold_left]; [exact Hin|].
  apply IH; [intros v Hv; apply Hback; right; exact Hv|].
  rewrite reinfer_variant_eq. cbn [tab_mutations].
  set (acc := tab_mutations tables) in *.
  set (ms := snd (map_mutations (var_genotypes var) (var_alleles var))).
  assert (Hms : parents_point_back ms) by (apply Hback; left; reflexivity).
  intros k row Hk.
  destruct (Nat.lt_ge_cases k (length acc)) as [Hlt|Hge].
  - rewrite nth_error_app1 in Hk by exact Hlt.
    destruct (Hin k row Hk) as [Hnull|[Hrange [prow [Hp Hsite]]]];
      [left; exact Hnull|right].
    split; [exact Hrange|]. exists prow. split; [|exact Hsite].
    rewrite nth_error_app1 by lia. exact Hp.
  - rewrite nth_error_app2 in Hk by exact Hge.
    rewrite nth_error_map in Hk.
    destruct (nth_error ms (k - length acc)) as [m|] eqn:Em;
      [|discriminate Hk].
    injection Hk as <-. cbn [shifted_row row_parent row_site].
    destruct (Hms _ m Em) as [Hnull|Hrange].
    + left. rewrite Hnull. reflexivity.
    + right.
      replace (mut_parent m =? NULL)%Z with false
        by (symmetry; apply Z.eqb_neq; unfold NULL; lia).
      cbn [negb]. split; [lia|].
      assert (Hp : (Z.to_nat (mut_parent m) < length ms)%nat).
      { assert ((k - length acc < length ms)%nat)
          by (apply nth_error_Some; rewrite Em; discriminate).
        lia. }
      destruct (nth_error ms (Z.to_nat (mut_parent m))) as [pm|] eqn:Epm;
        [|apply nth_error_None in Epm; lia].
      exists (shifted_row var (Z.of_nat (length acc)) pm). split; [|reflexivity].
      rewrite nth_error_app2 by lia.
      replace (Z.to_nat (mut_parent m + Z.of_nat (length acc)) - length acc)%nat
        with (Z.to_nat (mut_parent m)) by lia.
      rewrite nth_error_map, Epm. reflexivity.
Qed.

Lemma reinfer_from_parent_column (variants : list Variant) (tables : Tables) :
  map row_parent
      (tab_mutations
         (fold_left (reinfer_variant map_mutations) variants tables))
  = map row_parent (tab_mutations tables)
    ++ shifted_parents map_mutations (length (tab_mutations tables)) variants.
Proof.
  revert tables; induction variants as [|var vs IH]; intros tables;
    cbn [fold_left shifted_parents].
  - rewrite app_nil_r; reflexivity.
  - rewrite IH, reinfer_variant_eq. cbn [tab_mutations].
    rewrite map_app, map_map, length_app, length_map, <- app_assoc.
    reflexivity.
Qed.

End Reinfer.

(** X14: the re-inference loop of [parsimony] writes one site row per
    variant, in order, holding the position of the variant and the inferred
    ancestral state, and one mutation row per inferred mutation, in order,
    holding the index of the variant, the node and the derived state: nothing
    is dropped, repeated or reordered. *)
Theorem reinfer_columns
  (map_mutations : list Z -> list string -> string * list Mutation)
  (variants : list Variant) :
  tab_sites (reinfer map_mutations variants)
  = map (site_row_of map_mutations) variants
  /\ map row_core (tab_mutations (reinfer map_mutations variants))
     = flat_map (cores_of map_mutations) variants.
Proof.
  exact (reinfer_from_columns map_mutations variants
           {| tab_sites := []; tab_mutations := [] |}).
Qed.

(** X15: the parent column of the mutation table the loop builds: the rows
    of a variant keep a [NULL] parent and have every other parent moved by
    the number of rows written before the site.  Hence, when the parents of
    every inferred list point backwards in that list, the table is sound: the
    parent of every row is [NULL] or an earlier row of the same site. *)
Theorem reinfer_parents_in_site
  (map_mutations : list Z -> list string -> string * list Mutation)
  (variants : list Variant) :
  map row_parent (tab_mutations (reinfer map_mutations variants))
  = shifted_parents map_mutations 0 variants
  /\ ((forall var, In var variants ->
         parents_point_back
           (snd (map_mutations (var_genotypes var) (var_alleles var)))) ->
      parents_in_site (tab_mutations (reinfer map_mutations variants))).
Proof.
  split.
  - exact (reinfer_from_parent_column map_mutations variants
             {| tab_sites := []; tab_mutations := [] |}).
  - intros Hback. unfold reinfer.
    apply (reinfer_from_parents map_mutations variants _ Hback).
    intros [|k] row Hk; discriminate Hk.
Qed.

Lemma reinfer_parents_in_site_witness :
  map row_parent (tab_mutations (reinfer map_mutations_two two_variants))
  = [NULL; 0; NULL; 2]%Z
  /\ parents_in_site (tab_mutations (reinfer map_mutations_two two_variants)).
Proof.
  destruct (reinfer_parents_in_site map_mutations_two two_variants)
    as [Hcol Hsound].
  split; [rewrite Hcol; reflexivity|].
  apply Hsound.
  intros var _ k m Hk. cbn in Hk.
  destruct k as [|[|k]]; cbn in Hk.
  - injection Hk as <-. left; reflexivity.
  - injection Hk as <-. right; cbn; lia.
  - destruct k; discriminate Hk.
Defined.

Example reinfer_two_variants :
  map row_parent (tab_mutations (reinfer map_mutations_two two_variants))
  = [NULL; 0; NULL; 2]%Z.
Proof. reflexivity. Qed.

(** ** The diagonal of the genotype covariance *)

(** X6: every diagonal entry of the genotype covariance is the sum over the
    sites of the square of the centred genotype of that sample, hence
    non-negative. *)
Theorem naive_genotype_covariance_diagonal_nonneg (ts : TreeSequence) :
  exists C,
    naive_genotype_covariance ts = Ok C /\
    forall a, (a < num_samples ts)%nat ->
      Np.get C a a
      == qsum (map (fun row => cen (num_samples ts) row a
                               * cen (num_samples ts) row a) (sites ts))
      /\ 0 <= Np.get C a a.
Proof.
  eexists. split; [apply naive_genotype_covariance_value|].
  intros a Ha.
  assert (E := naive_entry ts a a Ha Ha).
  split; [exact E|]. rewrite E.
  apply qsum_nonneg. intros row _. apply Qsquare_nonneg.
Qed.

(** ** Symmetry of the result matrices *)








